(** * AuthenticationManager: password policy, login epoch, hash rotation,
    third-party identity linking

  Shallow embedding of [AuthenticationManager.js] (services/web,
  Features/Authentication).  JavaScript strings are sequences of UTF-16
  code units, the user collection is a finite map from [_id] to stored
  documents, and the callback-passing code is embedded as a tree of
  collaborator calls whose continuations are the JavaScript callbacks. *)

From Stdlib Require Import ZArith NArith List Bool String Ascii Lia.
From stdpp Require Import base option list gmap.
Import ListNotations.

Local Open Scope Z_scope.

(** ** JavaScript strings *)

Module JS.

(** A string is its sequence of UTF-16 code units; [length], [indexOf],
    [split] and indexing all count code units. *)
Abbreviation jsstring := (list N).

Fixpoint of_string (s : string) : jsstring :=
  match s with
  | EmptyString => []
  | String c rest => N_of_ascii c :: of_string rest
  end.

(** [s.startsWith(sub)] at position 0. *)
Fixpoint startsWith (sub s : jsstring) : bool :=
  match sub, s with
  | [], _ => true
  | _ :: _, [] => false
  | c :: sub', d :: s' => (c =? d)%N && startsWith sub' s'
  end.

Fixpoint indexOf_from (s sub : jsstring) (i : Z) : Z :=
  if startsWith sub s then i
  else match s with
       | [] => -1
       | _ :: s' => indexOf_from s' sub (i + 1)
       end.

(** [s.indexOf(sub)]: first position of [sub] in [s], or [-1]. *)
Definition indexOf (s sub : jsstring) : Z := indexOf_from s sub 0.

(** [s.split(sep)[0]] for a one-unit separator: the part before the first
    separator, the whole string when there is none. *)
Fixpoint split_head (sep : N) (s : jsstring) : jsstring :=
  match s with
  | [] => []
  | c :: rest => if (c =? sep)%N then [] else c :: split_head sep rest
  end.

(** Truthiness of a possibly missing string: [undefined], [null] and the
    empty string are falsy. *)
Definition truthy (s : option jsstring) : bool :=
  match s with
  | Some (_ :: _) => true
  | _ => false
  end.

(** [x || d] on a possibly missing string. *)
Definition or_string (x : option jsstring) (d : jsstring) : jsstring :=
  match x with
  | Some (c :: r) => c :: r
  | _ => d
  end.

(** [x || d] on a possibly missing number: [undefined] and [0] are falsy. *)
Definition or_number (x : option Z) (d : Z) : Z :=
  match x with
  | Some v => if v =? 0 then d else v
  | None => d
  end.

Definition at_sign : N := 64%N.

End JS.
Import JS.

(** ** Settings *)

Record LengthOptions := {
length_min : option Z;
length_max : option Z
}.

Record CharsOptions := {
chars_digits : option jsstring;
chars_letters : option jsstring;
chars_letters_up : option jsstring;
chars_symbols : option jsstring
}.

Record PasswordStrengthOptions := {
allowAnyChars : option bool;
pso_length : option LengthOptions;
pso_chars : option CharsOptions
}.

Record SecuritySettings := {
bcryptRounds : option Z;
bcryptMinorVersion : option jsstring;
disableBcryptRoundsUpgrades : bool
}.

Record SettingsT := {
passwordStrengthOptions : option PasswordStrengthOptions;
security : SecuritySettings
}.

(** ** Errors *)

Inductive PasswordErrorCode :=
| not_set | too_short | too_long | invalid_character | contains_email.

(** The errors the collaborators report (store, bcrypt, registration). *)
Inductive Fault :=
| StoreError
| HashingError
| RegistrationError
| DocumentNotFoundError.

Inductive Error :=
| InvalidPasswordError (code : PasswordErrorCode)
| ParallelLoginError
| InvalidUserObject          (* new Error('invalid user object') *)
| CollaboratorError (f : Fault).

#[global] Instance PasswordErrorCode_eq_dec : EqDecision PasswordErrorCode.
Proof. solve_decision. Defined.
#[global] Instance Fault_eq_dec : EqDecision Fault.
Proof. solve_decision. Defined.
#[global] Instance Error_eq_dec : EqDecision Error.
Proof. solve_decision. Defined.

(** ** Collaborators: bcrypt *)

(** The bcrypt library, as functions of their inputs; [genSalt] draws on a
    random seed.  How the asynchronous entry points fail is left to the
    world ([faults] below). *)
Record BcryptLib := {
  compare : jsstring -> jsstring -> bool;
  getRounds : jsstring -> Z;
  genSalt : Z -> jsstring -> N -> jsstring;
  hash : jsstring -> jsstring -> jsstring
}.

(** ** The user collection *)

Abbreviation ObjectId := N.

Record EmailEntry := {
  entry_email : jsstring;
  confirmedAt : option Z
}.

(** A stored user document, without its [_id] (the key of the collection).
    [password] is the legacy plaintext field that [$unset] removes; times
    are milliseconds. *)
Record UserDoc := {
  email : option jsstring;
  first_name : option jsstring;
  last_name : option jsstring;
  hashedPassword : option jsstring;
  password : option jsstring;
  loginEpoch : Z;
  lastFailedLogin : option Z;
  thirdPartyIdentifiers : list jsstring;
  admin : bool;
  emails : list EmailEntry
}.

#[global] Instance EmailEntry_eq_dec : EqDecision EmailEntry.
Proof. solve_decision. Defined.
#[global] Instance UserDoc_eq_dec : EqDecision UserDoc.
Proof. solve_decision. Defined.

(** One field assignment of an update: the [$set] entries the code writes,
    and the [push] on [thirdPartyIdentifiers]. *)
Inductive Assign :=
| set_lastFailedLogin (t : Z)
| set_hashedPassword (h : jsstring)
| set_email (e : jsstring)
| set_first_name (n : jsstring)
| set_last_name (n : jsstring)
| set_admin (b : bool)
| set_emails_0_confirmedAt (t : Z)
| push_thirdPartyIdentifiers (s : jsstring).

Definition apply_assign (a : Assign) (d : UserDoc) : UserDoc :=
  match a with
  | set_lastFailedLogin t =>
      {| email := email d; first_name := first_name d; last_name := last_name d;
         hashedPassword := hashedPassword d; password := password d;
         loginEpoch := loginEpoch d; lastFailedLogin := Some t;
         thirdPartyIdentifiers := thirdPartyIdentifiers d; admin := admin d;
         emails := emails d |}
  | set_hashedPassword h =>
      {| email := email d; first_name := first_name d; last_name := last_name d;
         hashedPassword := Some h; password := password d;
         loginEpoch := loginEpoch d; lastFailedLogin := lastFailedLogin d;
         thirdPartyIdentifiers := thirdPartyIdentifiers d; admin := admin d;
         emails := emails d |}
  | set_email e =>
      {| email := Some e; first_name := first_name d; last_name := last_name d;
         hashedPassword := hashedPassword d; password := password d;
         loginEpoch := loginEpoch d; lastFailedLogin := lastFailedLogin d;
         thirdPartyIdentifiers := thirdPartyIdentifiers d; admin := admin d;
         emails := emails d |}
  | set_first_name n =>
      {| email := email d; first_name := Some n; last_name := last_name d;
         hashedPassword := hashedPassword d; password := password d;
         loginEpoch := loginEpoch d; lastFailedLogin := lastFailedLogin d;
         thirdPartyIdentifiers := thirdPartyIdentifiers d; admin := admin d;
         emails := emails d |}
  | set_last_name n =>
      {| email := email d; first_name := first_name d; last_name := Some n;
         hashedPassword := hashedPassword d; password := password d;
         loginEpoch := loginEpoch d; lastFailedLogin := lastFailedLogin d;
         thirdPartyIdentifiers := thirdPartyIdentifiers d; admin := admin d;
         emails := emails d |}
  | set_admin b =>
      {| email := email d; first_name := first_name d; last_name := last_name d;
         hashedPassword := hashedPassword d; password := password d;
         loginEpoch := loginEpoch d; lastFailedLogin := lastFailedLogin d;
         thirdPartyIdentifiers := thirdPartyIdentifiers d; admin := b;
         emails := emails d |}
  | set_emails_0_confirmedAt t =>
      {| email := email d; first_name := first_name d; last_name := last_name d;
         hashedPassword := hashedPassword d; password := password d;
         loginEpoch := loginEpoch d; lastFailedLogin := lastFailedLogin d;
         thirdPartyIdentifiers := thirdPartyIdentifiers d; admin := admin d;
         emails := match emails d with
                   | [] => []
                   | e :: es => {| entry_email := entry_email e; confirmedAt := Some t |} :: es
                   end |}
  | push_thirdPartyIdentifiers s =>
      {| email := email d; first_name := first_name d; last_name := last_name d;
         hashedPassword := hashedPassword d; password := password d;
         loginEpoch := loginEpoch d; lastFailedLogin := lastFailedLogin d;
         thirdPartyIdentifiers := thirdPartyIdentifiers d ++ [s]; admin := admin d;
         emails := emails d |}
  end.

(** An update document: [{ $inc: { loginEpoch: n }, $set: {...},
    $unset: { password: true } }], each part optional. *)
Record Update := {
  upd_inc_loginEpoch : option Z;
  upd_set : list Assign;
  upd_unset_password : bool
}.

Definition apply_update (u : Update) (d : UserDoc) : UserDoc :=
  let d := foldl (fun d a => apply_assign a d) d (upd_set u) in
  let d :=
    match upd_inc_loginEpoch u with
    | Some n =>
        {| email := email d; first_name := first_name d; last_name := last_name d;
           hashedPassword := hashedPassword d; password := password d;
           loginEpoch := loginEpoch d + n; lastFailedLogin := lastFailedLogin d;
           thirdPartyIdentifiers := thirdPartyIdentifiers d; admin := admin d;
           emails := emails d |}
    | None => d
    end in
  if upd_unset_password u
  then {| email := email d; first_name := first_name d; last_name := last_name d;
          hashedPassword := hashedPassword d; password := None;
          loginEpoch := loginEpoch d; lastFailedLogin := lastFailedLogin d;
          thirdPartyIdentifiers := thirdPartyIdentifiers d; admin := admin d;
          emails := emails d |}
  else d.

(** The filter of an [updateOne]: [{ _id }] or [{ _id, loginEpoch }]. *)
Record Filter := {
  filter_id : ObjectId;
  filter_loginEpoch : option Z
}.

(** The find queries: [{ thirdPartyIdentifiers: sub }] matches documents
    whose array contains [sub]; [authenticate] receives its query from the
    caller. *)
Inductive Query :=
| Q_email (e : jsstring)
| Q_thirdPartyIdentifiers (sub : jsstring)
| Q_where (p : ObjectId -> UserDoc -> bool).

Definition matches (q : Query) (id : ObjectId) (d : UserDoc) : bool :=
  match q with
  | Q_email e => bool_decide (email d = Some e)
  | Q_thirdPartyIdentifiers sub => bool_decide (sub ∈ thirdPartyIdentifiers d)
  | Q_where p => p id d
  end.

(** A Mongoose document in memory: the fields read from the store and the
    assignments made since, which [save] writes back. *)
Record User := {
  _id : ObjectId;
  fields : UserDoc;
  modified : list Assign
}.

Definition assign (user : User) (a : Assign) : User :=
  {| _id := _id user; fields := apply_assign a (fields user);
     modified := modified user ++ [a] |}.

(** What a write reports: [nModified] (Mongoose) and [modifiedCount] (the
    driver) both read [modified]. *)
Record WriteResult := {
  matched : Z;
  modified_n : Z
}.
Definition nModified (r : WriteResult) : Z := modified_n r.
Definition modifiedCount (r : WriteResult) : Z := modified_n r.

Record UserDetails := {
  details_email : jsstring;
  details_first_name : jsstring;
  details_last_name : jsstring;
  details_password : jsstring
}.

Record Claims := {
  sub : jsstring;
  claims_email : jsstring;
  given_name : jsstring;
  family_name : jsstring
}.

(** ** Asynchronous programs *)

(** The two arguments [(error, value)] of a node-style callback. *)
Inductive Res (A : Type) :=
| Err (e : Error)
| Ok (a : A).
Arguments Err {A} e.
Arguments Ok {A} a.

(** The asynchronous calls to collaborators; the index is the type of the
    value handed to the callback. *)
Inductive Action : Type -> Type :=
| User_findOne (query : Query) : Action (option User)
| User_updateOne (filter : Filter) (update : Update) : Action WriteResult
| db_users_updateOne (filter : Filter) (update : Update) : Action WriteResult
| Document_save (user : User) : Action User
| bcrypt_compare (password hash : jsstring) : Action bool
| bcrypt_genSalt (rounds : Z) (minor : jsstring) : Action jsstring
| bcrypt_hash (password salt : jsstring) : Action jsstring
| registerNewUser (details : UserDetails) : Action User.

(** A run of callback-passing code: each call carries the callback it was
    given; [Deliver] is the invocation of the caller's own callback (code
    may follow it); [InBackground] is
    [HaveIBeenPwned.checkPasswordForReuseInBackground]; [Throw] is an
    uncaught exception. *)
Inductive Prog (R : Type) : Type :=
| Done
| Call {A : Type} (a : Action A) (k : Res A -> Prog R)
| NewDate (k : Z -> Prog R)
| RandomBytes (k : jsstring -> Prog R)
| Deliver (r : Res R) (k : Prog R)
| InBackground (password : jsstring) (k : Prog R)
| Throw.
Arguments Done {R}.
Arguments Call {R A} a k.
Arguments NewDate {R} k.
Arguments RandomBytes {R} k.
Arguments Deliver {R} r k.
Arguments InBackground {R} password k.
Arguments Throw {R}.

(** Statements that follow a synchronous callback invocation. *)
Fixpoint seq {R} (p q : Prog R) : Prog R :=
  match p with
  | Done => q
  | Call a k => Call a (fun r => seq (k r) q)
  | NewDate k => NewDate (fun t => seq (k t) q)
  | RandomBytes k => RandomBytes (fun s => seq (k s) q)
  | Deliver r k => Deliver r (seq k q)
  | InBackground pw k => InBackground pw (seq k q)
  | Throw => Throw
  end.

(** The callback of the outermost caller. *)
Definition toplevel {R} : Res R -> Prog R := fun r => Deliver r Done.

(** ** The world and the store *)

(** What the breach corpus lookup does on its own, unseen by the caller. *)
Inductive BreachOutcome := breach_found | breach_clean | breach_failed.

(** The world a run executes in: the user collection, the clock, the seed
    of the random source, and the failures the collaborators will report:
    the n-th asynchronous call answers with the n-th entry when it is an
    error, and normally otherwise. *)
Record World := {
  users : gmap ObjectId UserDoc;
  clock : Z;
  seed : N;
  faults : list (option Fault)
}.

Definition with_users (w : World) (m : gmap ObjectId UserDoc) : World :=
  {| users := m; clock := clock w; seed := seed w; faults := faults w |}.

Definition next_seed (w : World) : World :=
  {| users := users w; clock := clock w; seed := N.succ (seed w); faults := faults w |}.

Definition next_fault (w : World) : World :=
  {| users := users w; clock := clock w; seed := seed w; faults := tail (faults w) |}.

Inductive Event (R : Type) : Type :=
| EvCall {A : Type} (a : Action A) (r : Res A)
| EvDeliver (r : Res R)
| EvBackground (password : jsstring) (o : BreachOutcome)
| EvThrow.
Arguments EvCall {R A} a r.
Arguments EvDeliver {R} r.
Arguments EvBackground {R} password o.
Arguments EvThrow {R}.

(** Modelled from the spec: the store's [findByIdentifier] /
    [findByExternalIdentifier] ([User.findOne]) returns an account matching
    the criteria or none; here the first match in key order. *)
Definition store_findOne (q : Query) (m : gmap ObjectId UserDoc) : option User :=
  match List.find (fun kv => matches q (fst kv) (snd kv)) (map_to_list m) with
  | Some (id, d) => Some {| _id := id; fields := d; modified := [] |}
  | None => None
  end.

(** Modelled from the spec: the store's [conditionalUpdate] and
    [unconditionedUpdate] ([updateOne]): the single document with the
    filter's [_id] is patched when it exists and, for a conditioned filter,
    its [loginEpoch] equals the expected one; the count of modified
    documents is 0 or 1. *)
Definition store_updateOne (f : Filter) (u : Update) (m : gmap ObjectId UserDoc)
  : WriteResult * gmap ObjectId UserDoc :=
  match m !! filter_id f with
  | Some d =>
      if match filter_loginEpoch f with
         | Some n => loginEpoch d =? n
         | None => true
         end
      then let d' := apply_update u d in
           ({| matched := 1; modified_n := if decide (d' = d) then 0 else 1 |},
            <[filter_id f := d']> m)
      else ({| matched := 0; modified_n := 0 |}, m)
  | None => ({| matched := 0; modified_n := 0 |}, m)
  end.

(** Modelled from the spec: persisting a found or created account
    ([document.save()]): the assignments made on the in-memory document are
    written to the stored one; a document no longer in the collection is
    an error. *)
Definition store_save (user : User) (m : gmap ObjectId UserDoc)
  : Res User * gmap ObjectId UserDoc :=
  match m !! _id user with
  | Some d =>
      let d' := foldl (fun d a => apply_assign a d) d (modified user) in
      (Ok {| _id := _id user; fields := fields user; modified := [] |},
       <[_id user := d']> m)
  | None => (Err (CollaboratorError DocumentNotFoundError), m)
  end.

(** *** What a run shows *)

(** The results handed to the caller's callback, in order. *)
Definition delivered {R} (t : list (Event R)) : list (Res R) :=
  omap (fun e => match e with EvDeliver r => Some r | _ => None end) t.

(** The passwords handed to the background breach check, in order. *)
Definition background_checks {R} (t : list (Event R)) : list jsstring :=
  omap (fun e => match e with EvBackground pw _ => Some pw | _ => None end) t.

Definition is_call {R} (e : Event R) : Prop :=
  match e with EvCall _ _ => True | _ => False end.

(** A call that writes to the store. *)
Definition writes {A} (a : Action A) : bool :=
  match a with
  | User_updateOne _ _ | db_users_updateOne _ _ | Document_save _
  | registerNewUser _ => true
  | _ => false
  end.

(** An update conditioned on the login epoch. *)
Definition conditioned {A} (a : Action A) : bool :=
  match a with
  | User_updateOne f _ | db_users_updateOne f _ =>
      match filter_loginEpoch f with Some _ => true | None => false end
  | _ => false
  end.

Definition count_calls {R} (sel : forall A, Action A -> bool) (t : list (Event R)) : nat :=
  length (List.filter (fun e => match e with EvCall a _ => sel _ a | _ => false end) t).

(** The error the next asynchronous call will report, if it is to fail. *)
Definition next_call_fails (w : World) : option Fault :=
  match faults w with
  | Some e :: _ => Some e
  | _ => None
  end.

(** Every call a program can issue, whatever the answers, satisfies [P]. *)
Inductive Issues {R} (P : forall A, Action A -> Prop) : Prog R -> Prop :=
| Issues_Done : Issues P Done
| Issues_Call A (a : Action A) k :
    P A a -> (forall r, Issues P (k r)) -> Issues P (Call a k)
| Issues_NewDate k : (forall t, Issues P (k t)) -> Issues P (NewDate k)
| Issues_RandomBytes k : (forall s, Issues P (k s)) -> Issues P (RandomBytes k)
| Issues_Deliver r k : Issues P k -> Issues P (Deliver r k)
| Issues_InBackground pw k : Issues P k -> Issues P (InBackground pw k)
| Issues_Throw : Issues P Throw.

(** The background checks a program consists of, when it does nothing else. *)
Fixpoint only_background {R} (p : Prog R) : option (list jsstring) :=
  match p with
  | Done => Some []
  | InBackground pw k => cons pw <$> only_background k
  | _ => None
  end.

(** What a collaborator can hand to a callback: a value, or an error of
    its own. *)
Definition answer {A} (r : Res A) : Prop :=
  match r with
  | Err e => exists f, e = CollaboratorError f
  | Ok _ => True
  end.

(** On every path the program calls collaborators, then invokes the caller's
    callback once with a result [r], and after that only schedules
    background checks [bs], with [Post r bs]. *)
Inductive Settles {R} (Post : Res R -> list jsstring -> Prop) : Prog R -> Prop :=
| Settles_Call A (a : Action A) k :
    (forall r, answer r -> Settles Post (k r)) -> Settles Post (Call a k)
| Settles_NewDate k : (forall t, Settles Post (k t)) -> Settles Post (NewDate k)
| Settles_RandomBytes k : (forall s, Settles Post (k s)) -> Settles Post (RandomBytes k)
| Settles_Deliver r k bs :
    only_background k = Some bs -> Post r bs -> Settles Post (Deliver r k).

(** The program with its background checks left out. *)
Fixpoint without_background {R} (p : Prog R) : Prog R :=
  match p with
  | Done => Done
  | Call a k => Call a (fun r => without_background (k r))
  | NewDate k => NewDate (fun t => without_background (k t))
  | RandomBytes k => RandomBytes (fun s => without_background (k s))
  | Deliver r k => Deliver r (without_background k)
  | InBackground _ k => without_background k
  | Throw => Throw
  end.

(** Every account of [m] is still in [m'], with a login epoch not lower. *)
Definition epochs_grow (m m' : gmap ObjectId UserDoc) : Prop :=
  forall id d, m !! id = Some d ->
    exists d', m' !! id = Some d' /\ loginEpoch d <= loginEpoch d'.

(** Every account of [m] is still in [m'], with the same login epoch. *)
Definition epochs_kept (m m' : gmap ObjectId UserDoc) : Prop :=
  forall id d, m !! id = Some d ->
    exists d', m' !! id = Some d' /\ loginEpoch d' = loginEpoch d.

(** A call that has no [$inc] on the login epoch. *)
Definition keeps_epoch (A : Type) (a : Action A) : Prop :=
  match a with
  | User_updateOne _ u | db_users_updateOne _ u => upd_inc_loginEpoch u = None
  | _ => True
  end.

(** A call whose [$inc] on the login epoch, if any, is not negative. *)
Definition raises_epoch (A : Type) (a : Action A) : Prop :=
  match a with
  | User_updateOne _ u | db_users_updateOne _ u =>
      forall n, upd_inc_loginEpoch u = Some n -> 0 <= n
  | _ => True
  end.

(** A call that only reads the store or does not use it. *)
Definition reads_only (A : Type) (a : Action A) : Prop := writes a = false.

(** The calls of the password-set path: salt, hash, and one update that is
    not conditioned on the epoch and does not touch it. *)
Definition rehash_call (A : Type) (a : Action A) : Prop :=
  match a with
  | bcrypt_genSalt _ _ | bcrypt_hash _ _ => True
  | db_users_updateOne f u =>
      filter_loginEpoch f = None /\ upd_inc_loginEpoch u = None
  | _ => False
  end.

(** The calls of the login path: the read, the comparison, the conditioned
    increment by one, and the password-set path. *)
Definition login_call (A : Type) (a : Action A) : Prop :=
  match a with
  | User_findOne _ | bcrypt_compare _ _ => True
  | User_updateOne f u =>
      filter_loginEpoch f <> None /\ upd_inc_loginEpoch u = Some 1
  | _ => rehash_call A a
  end.

(** The calls of the linking path: the read, the registration, the save. *)
Definition link_call (A : Type) (a : Action A) : Prop :=
  match a with
  | User_findOne _ | registerNewUser _ | Document_save _ => True
  | _ => False
  end.

(** What [authenticate] hands its caller, and the background checks that
    follow: a check of the password after a success (a second one when the
    hash was rotated), none otherwise. *)
Definition login_settled (password : jsstring) (r : Res (option User))
    (bs : list jsstring) : Prop :=
  match r with
  | Ok (Some _) => bs = [password] \/ bs = [password; password]
  | _ => bs = []
  end.

(** The same once the conditioned write has landed: the generic failure on
    a mismatch, the fetched user on a match, or an error of the rotation,
    which is never the conflict error. *)
Definition landed_settled (user : User) (password : jsstring) (match_ : bool)
    (r : Res (option User)) (bs : list jsstring) : Prop :=
  match r with
  | Ok None => match_ = false /\ bs = []
  | Ok (Some u) =>
      match_ = true /\ u = user /\ (bs = [password] \/ bs = [password; password])
  | Err e => match_ = true /\ e <> ParallelLoginError /\ bs = []
  end.

(** What [setUserPassword] hands its caller, and the background checks that
    follow: one when the store answered the update, none when the call
    ended in an error. *)
Definition password_set_settled (password : option jsstring) (r : Res bool)
    (bs : list jsstring) : Prop :=
  match r with
  | Ok _ => exists pw, password = Some pw /\ bs = [pw]
  | Err e => e <> ParallelLoginError /\ bs = []
  end.

(** The update of the password-set path, which writes the hash. *)
Definition hash_update {A} (a : Action A) : bool :=
  match a with
  | db_users_updateOne _ _ => true
  | _ => false
  end.

Definition is_ok {A} (r : Res A) : bool :=
  match r with
  | Ok _ => true
  | Err _ => false
  end.

(** The number of calls selected by [sel] that were answered without an
    error. *)
Definition count_answered {R} (sel : forall A, Action A -> bool) (t : list (Event R)) : nat :=
  length (List.filter (fun e => match e with
                                | EvCall a r => sel _ a && is_ok r
                                | _ => false
                                end) t).

(** [Settles], with the calls made so far and their answers: the program
    runs after the events [pre], and [Post] sees all the calls up to the
    invocation of the callback. *)
Inductive SettlesFrom {R} (Post : list (Event R) -> Res R -> list jsstring -> Prop)
  : list (Event R) -> Prog R -> Prop :=
| SettlesFrom_Call A (a : Action A) k pre :
    (forall r, answer r -> SettlesFrom Post (pre ++ [EvCall a r]) (k r)) ->
    SettlesFrom Post pre (Call a k)
| SettlesFrom_NewDate k pre :
    (forall t, SettlesFrom Post pre (k t)) -> SettlesFrom Post pre (NewDate k)
| SettlesFrom_RandomBytes k pre :
    (forall s, SettlesFrom Post pre (k s)) -> SettlesFrom Post pre (RandomBytes k)
| SettlesFrom_Deliver r k bs pre :
    only_background k = Some bs -> Post pre r bs -> SettlesFrom Post pre (Deliver r k).

(** The update document [authenticate] builds: the increment, and the
    failure time when the password did not match. *)
Definition login_update (now : Z) (match_ : bool) : Update :=
  {| upd_inc_loginEpoch := Some 1;
     upd_set := if match_ then [] else [set_lastFailedLogin now];
     upd_unset_password := false |}.

(** ** Password policy *)

Section AuthenticationManager.

Variable Settings : SettingsT.
Variable bcrypt : BcryptLib.
(** [crypto.randomBytes(32).toString("hex")] as a function of the seed. *)
Variable randomBytes32hex : N -> jsstring.

Set Default Proof Using "Type".

Definition default_digits : jsstring := of_string "1234567890".
Definition default_letters : jsstring := of_string "abcdefghijklmnopqrstuvwxyz".
Definition default_letters_up : jsstring := of_string "ABCDEFGHIJKLMNOPQRSTUVWXYZ".
(** The default symbols; the pound and euro signs are the code units
    163 and 8364. *)
Definition default_symbols : jsstring :=
  of_string "@#$%^&*()-_=+[]{};:<>/?!" ++ [163%N; 8364%N] ++ of_string ".,".

(** The loop of [_passwordCharactersAreValid] over [charIndex]. *)
Fixpoint chars_all_in (digits letters lettersUp symbols password : jsstring) : bool :=
  match password with
  | [] => true
  | c :: rest =>
      if (indexOf digits [c] =? -1) && (indexOf letters [c] =? -1)
         && (indexOf lettersUp [c] =? -1) && (indexOf symbols [c] =? -1)
      then false
      else chars_all_in digits letters lettersUp symbols rest
  end.

Definition _passwordCharactersAreValid (password : jsstring) : bool :=
  let chars :=
    match passwordStrengthOptions Settings with
    | Some pso => pso_chars pso
    | None => None
    end in
  let digits := or_string (chars ≫= chars_digits) default_digits in
  let letters := or_string (chars ≫= chars_letters) default_letters in
  let lettersUp := or_string (chars ≫= chars_letters_up) default_letters_up in
  let symbols := or_string (chars ≫= chars_symbols) default_symbols in
  chars_all_in digits letters lettersUp symbols password.

(** [validatePassword(password, email)]: [None] is the [null] it returns on
    success.  The password is absent ([null] or [undefined]) or a string;
    the email is a string or anything else ([typeof email !== 'string']). *)
Definition validatePassword (password email : option jsstring) : option Error :=
  match password with
  | None => Some (InvalidPasswordError not_set)
  | Some password =>
      let allowAnyChars :=
        match passwordStrengthOptions Settings with
        | Some pso => bool_decide (allowAnyChars pso = Some true)
        | None => false
        end in
      let len :=
        match passwordStrengthOptions Settings with
        | Some pso => pso_length pso
        | None => None
        end in
      let min := or_number (len ≫= length_min) 6 in
      let max := or_number (len ≫= length_max) 72 in
      let max := if max >? 72 then 72 else max in
      if Z.of_nat (length password) <? min
      then Some (InvalidPasswordError too_short)
      else if Z.of_nat (length password) >? max
      then Some (InvalidPasswordError too_long)
      else if negb allowAnyChars && negb (_passwordCharactersAreValid password)
      then Some (InvalidPasswordError invalid_character)
      else
        match email with
        | Some (c :: r) =>
            let email := c :: r in
            let startOfEmail := split_head at_sign email in
            if negb (indexOf password email =? -1)
               || negb (indexOf password startOfEmail =? -1)
            then Some (InvalidPasswordError contains_email)
            else None
        | _ => None
        end
  end.

(** *** The five rules, each on its own

    The rules as the policy words them, independent of the order in which
    [validatePassword] tests them. *)

Definition configured_length : option LengthOptions :=
  match passwordStrengthOptions Settings with
  | Some pso => pso_length pso
  | None => None
  end.

Definition configured_chars : option CharsOptions :=
  match passwordStrengthOptions Settings with
  | Some pso => pso_chars pso
  | None => None
  end.

(** The configured minimum (default 6) and the effective maximum
    [min(configured_max, 72)]. *)
Definition minimum_length : Z := or_number (configured_length ≫= length_min) 6.
Definition maximum_length : Z := Z.min (or_number (configured_length ≫= length_max) 72) 72.

(** Character-class restriction is active unless [allowAnyChars] is [true]. *)
Definition restricts_characters : Prop :=
  forall pso, passwordStrengthOptions Settings = Some pso -> allowAnyChars pso <> Some true.

(** The union of the four configured class strings. *)
Definition allowed_characters : jsstring :=
  or_string (configured_chars ≫= chars_digits) default_digits
  ++ or_string (configured_chars ≫= chars_letters) default_letters
  ++ or_string (configured_chars ≫= chars_letters_up) default_letters_up
  ++ or_string (configured_chars ≫= chars_symbols) default_symbols.

(** [sub] occurs in [s] as a literal substring. *)
Definition Substring (sub s : jsstring) : Prop :=
  exists pre post, s = pre ++ sub ++ post.

Definition Violates (password email : option jsstring) (code : PasswordErrorCode) : Prop :=
  match code with
  | not_set => password = None
  | too_short =>
      exists p, password = Some p /\ Z.of_nat (length p) < minimum_length
  | too_long =>
      exists p, password = Some p /\ maximum_length < Z.of_nat (length p)
  | invalid_character =>
      exists p c, password = Some p /\ restricts_characters
                  /\ c ∈ p /\ c ∉ allowed_characters
  | contains_email =>
      exists p e, password = Some p /\ email = Some e /\ e <> []
                  /\ (Substring e p \/ Substring (split_head at_sign e) p)
  end.

(** The position of a code in the order of the checks. *)
Definition check_rank (code : PasswordErrorCode) : nat :=
  match code with
  | not_set => 0
  | too_short => 1
  | too_long => 2
  | invalid_character => 3
  | contains_email => 4
  end.


Definition default_security : SecuritySettings :=
{| bcryptRounds := None; bcryptMinorVersion := None;
   disableBcryptRoundsUpgrades := false |}.

Definition default_settings : SettingsT :=
{| passwordStrengthOptions := None; security := default_security |}.

(** ** The authentication manager *)

Definition BCRYPT_ROUNDS : Z := or_number (bcryptRounds (security Settings)) 12.
Definition BCRYPT_MINOR_VERSION : jsstring :=
  or_string (bcryptMinorVersion (security Settings)) (of_string "a").

(** Modelled from the spec: [UserRegistrationHandler.registerNewUser], absent
    from the sources.  The registration collaborator creates the account in
    the store from the profile fields and the password it is given (stored
    hashed at the target cost) and returns it; the account is new (a fresh
    [_id], epoch 0, no external identifier, one unconfirmed email entry). *)
Definition new_account (details : UserDetails) (hashed : jsstring) : UserDoc :=
  {| email := Some (details_email details);
     first_name := Some (details_first_name details);
     last_name := Some (details_last_name details);
     hashedPassword := Some hashed;
     password := None;
     loginEpoch := 0;
     lastFailedLogin := None;
     thirdPartyIdentifiers := [];
     admin := false;
     emails := [{| entry_email := details_email details; confirmedAt := None |}] |}.

Definition register_new_user (details : UserDetails) (w : World) : Res User * World :=
  let id := fresh (dom (users w)) in
  let salt := genSalt bcrypt BCRYPT_ROUNDS BCRYPT_MINOR_VERSION (seed w) in
  let d := new_account details (hash bcrypt (details_password details) salt) in
  (Ok {| _id := id; fields := d; modified := [] |},
   next_seed (with_users w (<[id := d]> (users w)))).

(** What a collaborator answers when it does not fail. *)
Definition handle {A} (a : Action A) (w : World) : Res A * World :=
  match a in Action T return Res T * World with
  | User_findOne q => (Ok (store_findOne q (users w)), w)
  | User_updateOne f u =>
      let '(r, m) := store_updateOne f u (users w) in (Ok r, with_users w m)
  | db_users_updateOne f u =>
      let '(r, m) := store_updateOne f u (users w) in (Ok r, with_users w m)
  | Document_save user =>
      let '(r, m) := store_save user (users w) in (r, with_users w m)
  | bcrypt_compare pw h => (Ok (compare bcrypt pw h), w)
  | bcrypt_genSalt rounds minor => (Ok (genSalt bcrypt rounds minor (seed w)), next_seed w)
  | bcrypt_hash pw salt => (Ok (hash bcrypt pw salt), w)
  | registerNewUser details => register_new_user details w
  end.

(** A failing call reports its error and has no effect. *)
Definition perform {A} (a : Action A) (w : World) : Res A * World :=
  match faults w with
  | Some e :: _ => (Err (CollaboratorError e), next_fault w)
  | _ => handle a (next_fault w)
  end.

(** Running a program in a world: the events in order, and the world left.
    [HaveIBeenPwned] is what the background check finds, on its own. *)
Fixpoint run {R} (HaveIBeenPwned : jsstring -> BreachOutcome) (p : Prog R) (w : World)
  : list (Event R) * World :=
  match p with
  | Done => ([], w)
  | Call a k =>
      let '(r, w1) := perform a w in
      let '(t, w2) := run HaveIBeenPwned (k r) w1 in
      (EvCall a r :: t, w2)
  | NewDate k => run HaveIBeenPwned (k (clock w)) w
  | RandomBytes k => run HaveIBeenPwned (k (randomBytes32hex (seed w))) (next_seed w)
  | Deliver r k =>
      let '(t, w') := run HaveIBeenPwned k w in (EvDeliver r :: t, w')
  | InBackground pw k =>
      let '(t, w') := run HaveIBeenPwned k w in
      (EvBackground pw (HaveIBeenPwned pw) :: t, w')
  | Throw => ([EvThrow], w)
  end.

(** *** The functions of [AuthenticationManager] *)

Definition _checkWriteResult {R} (result : WriteResult) (callback : Res bool -> Prog R) : Prog R :=
  if modifiedCount result =? 1
  then callback (Ok true)
  else callback (Ok false).

Definition hashPassword {R} (password : jsstring) (callback : Res jsstring -> Prog R) : Prog R :=
  Call (bcrypt_genSalt BCRYPT_ROUNDS BCRYPT_MINOR_VERSION) (fun r =>
    match r with
    | Err error => callback (Err error)
    | Ok salt => Call (bcrypt_hash password salt) callback
    end).

(** [user] may be [null]; [user._id], an ObjectId, is never falsy. *)
Definition setUserPasswordInV2 {R} (user : option User) (password : option jsstring)
    (callback : Res bool -> Prog R) : Prog R :=
  match user with
  | None => callback (Err InvalidUserObject)
  | Some user =>
      if negb (truthy (email (fields user)))
      then callback (Err InvalidUserObject)
      else
        match validatePassword password (email (fields user)), password with
        | Some validationError, _ => callback (Err validationError)
        | None, None => callback (Err (InvalidPasswordError not_set))
        | None, Some password =>
            hashPassword password (fun r =>
              match r with
              | Err error => callback (Err error)
              | Ok hash =>
                  Call (db_users_updateOne
                          {| filter_id := _id user; filter_loginEpoch := None |}
                          {| upd_inc_loginEpoch := None;
                             upd_set := [set_hashedPassword hash];
                             upd_unset_password := true |})
                    (fun r =>
                       match r with
                       | Err updateError => callback (Err updateError)
                       | Ok result =>
                           seq (_checkWriteResult result callback)
                               (InBackground password Done)
                       end)
              end)
        end
  end.

Definition setUserPassword {R} (user : option User) (password : option jsstring)
    (callback : Res bool -> Prog R) : Prog R :=
  setUserPasswordInV2 user password callback.

(** The callback of [checkRounds] is called with no argument, or with what
    [setUserPassword] reports; [authenticate] reads only the error. *)
Definition checkRounds {R} (user : User) (hashedPassword password : jsstring)
    (callback : option Error -> Prog R) : Prog R :=
  if disableBcryptRoundsUpgrades (security Settings)
  then callback None
  else
    let currentRounds := getRounds bcrypt hashedPassword in
    if currentRounds <? BCRYPT_ROUNDS
    then setUserPassword (Some user) (Some password) (fun r =>
           match r with
           | Err e => callback (Some e)
           | Ok _ => callback None
           end)
    else callback None.

(** The condition under which [checkRounds] goes through [setUserPassword]:
    upgrades are not disabled and the cost of the stored hash is below
    [BCRYPT_ROUNDS]. *)
Definition rotation_due (hashedPassword : jsstring) : bool :=
  negb (disableBcryptRoundsUpgrades (security Settings))
  && (getRounds bcrypt hashedPassword <? BCRYPT_ROUNDS).

(** The background checks that follow what [authenticate] hands its caller,
    against the calls [pre] it made.  After a user is handed over: when its
    stored hash was due for rotation the store has answered one hash update
    and the password is checked twice; when it was not, no hash update was
    made and the password is checked once.  After anything else no hash
    update was answered and nothing is checked. *)
Definition login_checked (password : jsstring) (pre : list (Event (option User)))
    (r : Res (option User)) (bs : list jsstring) : Prop :=
  match r with
  | Ok (Some u) =>
      exists hp,
        hashedPassword (fields u) = Some hp
        /\ count_answered (@hash_update) pre = (if rotation_due hp then 1 else 0)%nat
        /\ bs = if rotation_due hp then [password; password] else [password]
  | _ => count_answered (@hash_update) pre = 0%nat /\ bs = []
  end.

(** The same for [setUserPassword]: a result, and one check, exactly when
    the store has answered the hash update; an error, and no check, when no
    hash update was answered. *)
Definition password_set_checked (password : option jsstring) (pre : list (Event bool))
    (r : Res bool) (bs : list jsstring) : Prop :=
  match r with
  | Ok _ =>
      exists pw, password = Some pw
        /\ count_answered (@hash_update) pre = 1%nat /\ bs = [pw]
  | Err _ => count_answered (@hash_update) pre = 0%nat /\ bs = []
  end.

(** The callback given to [User.updateOne] in [authenticate]. *)
Definition authenticate_updated {R} (user : User) (hashedPassword password : jsstring)
    (match_ : bool) (callback : Res (option User) -> Prog R)
    (r : Res WriteResult) : Prog R :=
  match r with
  | Err err => callback (Err err)
  | Ok result =>
      if negb (nModified result =? 1)
      then callback (Err ParallelLoginError)
      else if negb match_
      then callback (Ok None)
      else checkRounds user hashedPassword password (fun err =>
             match err with
             | Some err => callback (Err err)
             | None => seq (callback (Ok (Some user))) (InBackground password Done)
             end)
  end.

(** The callback given to [bcrypt.compare] in [authenticate]: the
    conditioned write. *)
Definition authenticate_compared {R} (user : User) (hashedPassword password : jsstring)
    (callback : Res (option User) -> Prog R) (r : Res bool) : Prog R :=
  match r with
  | Err error => callback (Err error)
  | Ok match_ =>
      let updateOne update :=
        Call (User_updateOne
                {| filter_id := _id user;
                   filter_loginEpoch := Some (loginEpoch (fields user)) |}
                update)
          (authenticate_updated user hashedPassword password match_ callback) in
      if negb match_
      then NewDate (fun now =>
             updateOne {| upd_inc_loginEpoch := Some 1;
                          upd_set := [set_lastFailedLogin now];
                          upd_unset_password := false |})
      else updateOne {| upd_inc_loginEpoch := Some 1;
                        upd_set := [];
                        upd_unset_password := false |}
  end.

(** The callback given to [User.findOne] in [authenticate]. *)
Definition authenticate_found {R} (password : jsstring)
    (callback : Res (option User) -> Prog R) (r : Res (option User)) : Prog R :=
  match r with
  | Err error => callback (Err error)
  | Ok None => callback (Ok None)
  | Ok (Some user) =>
      match hashedPassword (fields user) with
      | Some (c :: h) =>
          Call (bcrypt_compare password (c :: h))
            (authenticate_compared user (c :: h) password callback)
      | _ => callback (Ok None)
      end
  end.

Definition authenticate {R} (query : Query) (password : jsstring)
    (callback : Res (option User) -> Prog R) : Prog R :=
  Call (User_findOne query) (authenticate_found password callback).

Definition createIfNotExistAndLogin {R} (user : option User) (claims : Claims)
    (query : Query) (callback : Res User -> Prog R) : Prog R :=
  let create :=
    (* create random pass for local userdb *)
    RandomBytes (fun pass =>
      Call (registerNewUser
              {| details_email := claims_email claims;
                 details_first_name := given_name claims;
                 details_last_name := family_name claims;
                 details_password := pass |})
        (fun r =>
           match r with
           | Err error => callback (Err error)
           | Ok user =>
               let user := assign user (set_admin false) in
               match emails (fields user) with
               | [] => Throw     (* user.emails[0] is undefined *)
               | _ :: _ =>
                   NewDate (fun now =>
                     let user := assign user (set_emails_0_confirmedAt now) in
                     let user := assign user (push_thirdPartyIdentifiers (sub claims)) in
                     Call (Document_save user) (fun r =>
                       match r with
                       | Err err => callback (Err err)
                       | Ok result => callback (Ok result)
                       end))
               end
           end)) in
  match user with
  | None => create
  | Some user =>
      if negb (truthy (hashedPassword (fields user)))
      then create
      else
        let user := assign user (set_email (claims_email claims)) in
        let user := assign user (set_first_name (given_name claims)) in
        let user := assign user (set_last_name (family_name claims)) in
        Call (Document_save user) (fun r =>
          match r with
          | Err err => callback (Err err)
          | Ok result => callback (Ok result)
          end)
  end.

Definition doPassportLogin {R} (claims : Claims) (callback : Res User -> Prog R) : Prog R :=
  let query := Q_thirdPartyIdentifiers (sub claims) in
  Call (User_findOne query) (fun r =>
    match r with
    | Err error => callback (Err error)
    | Ok user => createIfNotExistAndLogin user claims query callback
    end).

(** The details [createIfNotExistAndLogin] registers a claim with. *)
Definition claim_details (claims : Claims) (pass : jsstring) : UserDetails :=
  {| details_email := claims_email claims;
     details_first_name := given_name claims;
     details_last_name := family_name claims;
     details_password := pass |}.

(** The registered account once confirmed and linked to the subject. *)
Definition linked_account (claims : Claims) (hashed : jsstring) (now : Z) : UserDoc :=
  {| email := Some (claims_email claims);
     first_name := Some (given_name claims);
     last_name := Some (family_name claims);
     hashedPassword := Some hashed;
     password := None;
     loginEpoch := 0;
     lastFailedLogin := None;
     thirdPartyIdentifiers := [sub claims];
     admin := false;
     emails := [{| entry_email := claims_email claims; confirmedAt := Some now |}] |}.

(** A stored account with its three profile fields overwritten from the
    claims. *)
Definition profile_updated (claims : Claims) (d : UserDoc) : UserDoc :=
  {| email := Some (claims_email claims);
     first_name := Some (given_name claims);
     last_name := Some (family_name claims);
     hashedPassword := hashedPassword d;
     password := password d;
     loginEpoch := loginEpoch d;
     lastFailedLogin := lastFailedLogin d;
     thirdPartyIdentifiers := thirdPartyIdentifiers d;
     admin := admin d;
     emails := emails d |}.

(** ** Sample data *)

(** A small stand-in for bcrypt: a salt is the cost followed by the seed,
    a hash is the salt followed by the password. *)
Definition sample_bcrypt : BcryptLib :=
  {| compare := fun pw h => bool_decide (drop 2 h = pw);
     getRounds := fun h => match h with r :: _ => Z.of_N r | [] => 0 end;
     genSalt := fun rounds _ s => [Z.to_N rounds; s];
     hash := fun pw salt => salt ++ pw |}.

Definition sample_random (s : N) : jsstring := [s; 97%N; 98%N].

Definition sample_hibp (pw : jsstring) : BreachOutcome := breach_clean.

(** An account with a password hashed at cost 10, below the default 12. *)
Definition alice : UserDoc :=
  {| email := Some (of_string "alice@example.com");
     first_name := Some (of_string "Alice");
     last_name := Some (of_string "A");
     hashedPassword := Some ([10%N; 7%N] ++ of_string "correct-horse");
     password := Some (of_string "correct-horse");
     loginEpoch := 3;
     lastFailedLogin := None;
     thirdPartyIdentifiers := [];
     admin := false;
     emails := [{| entry_email := of_string "alice@example.com"; confirmedAt := None |}] |}.

(** An account linked to the subject ["sub-1"] that has no local password,
    registered under an email the provider has since changed. *)
Definition bob : UserDoc :=
  {| email := Some (of_string "bob@old.example.com");
     first_name := Some (of_string "Bob");
     last_name := Some (of_string "B");
     hashedPassword := None;
     password := None;
     loginEpoch := 0;
     lastFailedLogin := None;
     thirdPartyIdentifiers := [of_string "sub-1"];
     admin := false;
     emails := [{| entry_email := of_string "bob@old.example.com"; confirmedAt := None |}] |}.

Definition alice_user : User := {| _id := 1%N; fields := alice; modified := [] |}.

Definition bob_claims : Claims :=
  {| sub := of_string "sub-1";
     claims_email := of_string "bob@example.com";
     given_name := of_string "Bob";
     family_name := of_string "B" |}.

Definition carol_claims : Claims :=
  {| sub := of_string "sub-2";
     claims_email := of_string "carol@example.com";
     given_name := of_string "Carol";
     family_name := of_string "C" |}.

Definition sample_world : World :=
  {| users := {[ 1%N := alice ]}; clock := 1000; seed := 5%N; faults := [] |}.

(** The same collection, where the third asynchronous call will fail. *)
Definition failing_world : World :=
  {| users := {[ 1%N := alice ]}; clock := 1000; seed := 5%N;
     faults := [None; None; Some StoreError] |}.

(** The collection after another login has advanced the epoch of the
    account to 4. *)
Definition stale_world : World :=
  {| users := {[ 1%N := apply_update (login_update 999 true) alice ]};
     clock := 1000; seed := 5%N; faults := [] |}.

Definition bob_world : World :=
  {| users := {[ 2%N := bob ]}; clock := 1000; seed := 5%N; faults := [] |}.

(** An account whose hash already has the default cost 12. *)
Definition dave : UserDoc :=
  {| email := Some (of_string "dave@example.com");
     first_name := Some (of_string "Dave");
     last_name := Some (of_string "D");
     hashedPassword := Some ([12%N; 7%N] ++ of_string "battery-staple");
     password := None;
     loginEpoch := 8;
     lastFailedLogin := Some 500;
     thirdPartyIdentifiers := [];
     admin := false;
     emails := [{| entry_email := of_string "dave@example.com"; confirmedAt := Some 1 |}] |}.

(** An account whose password, hashed at cost 10, is shorter than the
    default minimum of 6. *)
Definition erin : UserDoc :=
  {| email := Some (of_string "erin@example.com");
     first_name := Some (of_string "Erin");
     last_name := Some (of_string "E");
     hashedPassword := Some ([10%N; 7%N] ++ of_string "short");
     password := None;
     loginEpoch := 0;
     lastFailedLogin := None;
     thirdPartyIdentifiers := [];
     admin := false;
     emails := [{| entry_email := of_string "erin@example.com"; confirmedAt := None |}] |}.

Definition dave_user : User := {| _id := 4%N; fields := dave; modified := [] |}.
Definition erin_user : User := {| _id := 5%N; fields := erin; modified := [] |}.

Definition staff_world : World :=
  {| users := <[4%N := dave]> {[ 5%N := erin ]}; clock := 2000; seed := 9%N;
     faults := [] |}.

(** The same collection when the store is down. *)
Definition store_down_world : World :=
  {| users := <[4%N := dave]> {[ 5%N := erin ]}; clock := 2000; seed := 9%N;
     faults := [Some StoreError] |}.

(** A user object whose [_id] is in no collection above. *)
Definition ghost_user : User := {| _id := 9%N; fields := alice; modified := [] |}.

(** The account [alice] after its password was set to ["new-password-1"]
    in [sample_world]. *)
Definition alice_reset : UserDoc :=
  {| email := email alice; first_name := first_name alice; last_name := last_name alice;
     hashedPassword := Some ([12%N; 5%N] ++ of_string "new-password-1");
     password := None;
     loginEpoch := loginEpoch alice; lastFailedLogin := lastFailedLogin alice;
     thirdPartyIdentifiers := thirdPartyIdentifiers alice; admin := admin alice;
     emails := emails alice |}.

(** The identifiers of the accounts that carry a subject identifier. *)
Definition linked_ids (s : jsstring) (m : gmap ObjectId UserDoc) : list ObjectId :=
  map fst (List.filter (fun kv => bool_decide (s ∈ thirdPartyIdentifiers (snd kv)))
             (map_to_list m)).

(** ** Frames *)

(** A stored account without its password fields. *)
Definition without_password (d : UserDoc) : UserDoc :=
  {| email := email d; first_name := first_name d; last_name := last_name d;
     hashedPassword := None; password := None;
     loginEpoch := loginEpoch d; lastFailedLogin := lastFailedLogin d;
     thirdPartyIdentifiers := thirdPartyIdentifiers d; admin := admin d;
     emails := emails d |}.

(** A stored account without its password fields and its login state: what
    is left is the profile and the linkage. *)
Definition without_login_state (d : UserDoc) : UserDoc :=
  {| email := email d; first_name := first_name d; last_name := last_name d;
     hashedPassword := None; password := None;
     loginEpoch := 0; lastFailedLogin := None;
     thirdPartyIdentifiers := thirdPartyIdentifiers d; admin := admin d;
     emails := emails d |}.

(** From [m] to [m'] no account was added or removed, every account other
    than [id] is as it was, and [id] differs at most in what [erase]
    forgets. *)
Definition changes_only (id : ObjectId) (erase : UserDoc -> UserDoc)
    (m m' : gmap ObjectId UserDoc) : Prop :=
  dom m' = dom m
  /\ (forall id', id' <> id -> m' !! id' = m !! id')
  /\ (forall d d', m !! id = Some d -> m' !! id = Some d' -> erase d' = erase d).

(** A call that can change the account [id] only, and only in what [erase]
    forgets: a bcrypt call, or an update filtered on [id]. *)
Definition call_changes_only (id : ObjectId) (erase : UserDoc -> UserDoc)
    (A : Type) (a : Action A) : Prop :=
  match a with
  | bcrypt_compare _ _ | bcrypt_genSalt _ _ | bcrypt_hash _ _ => True
  | User_updateOne f u | db_users_updateOne f u =>
      filter_id f = id /\ forall d, erase (apply_update u d) = erase d
  | _ => False
  end.

(** Section variables a goal does not mention are dropped, so that a proof
    depends only on what its statement names. *)
Ltac tidy :=
  try clear dependent randomBytes32hex; try clear dependent bcrypt;
  try clear dependent Settings.

(** * Properties *)

Lemma startsWith_spec sub s : startsWith sub s = true <-> exists post, s = sub ++ post.
Proof.
  revert s. induction sub as [|c sub IH]; intros s; simpl.
  - split; [intros _; by exists s | done].
  - destruct s as [|d s].
    + split; [done | intros [post H]; discriminate H].
    + rewrite andb_true_iff, N.eqb_eq, IH. split.
      * intros [-> [post ->]]. by exists post.
      * intros [post H]. injection H as -> ->. eauto.
Qed.

Lemma indexOf_from_found s sub i :
  0 <= i -> indexOf_from s sub i <> -1 <-> Substring sub s.
Proof.
  revert i. induction s as [|d s IH]; intros i Hi; simpl.
  - destruct (startsWith sub []) eqn:E.
    + apply startsWith_spec in E as [post E]. split; [|lia].
      intros _. by exists [], post.
    + split; [done|]. intros [pre [post H]]. exfalso.
      assert (startsWith sub [] = true); [|congruence].
      apply startsWith_spec. destruct pre; [|discriminate H]. by exists post.
  - destruct (startsWith sub (d :: s)) eqn:E.
    + apply startsWith_spec in E as [post E]. split; [|lia].
      intros _. by exists [], post.
    + rewrite IH by lia. split.
      * intros [pre [post ->]]. by exists (d :: pre), post.
      * intros [pre [post H]]. destruct pre as [|x pre].
        -- exfalso. assert (startsWith sub (d :: s) = true); [|congruence].
           apply startsWith_spec. by exists post.
        -- simpl in H. injection H as -> ->. by exists pre, post.
Qed.

Lemma indexOf_found s sub : indexOf s sub <> -1 <-> Substring sub s.
Proof. apply indexOf_from_found. lia. Qed.

Lemma indexOf_spec s sub : indexOf s sub = -1 <-> ~ Substring sub s.
Proof.
  rewrite <- indexOf_found. destruct (Z.eq_dec (indexOf s sub) (-1)); tauto.
Qed.

Lemma Substring_singleton c s : Substring [c] s <-> c ∈ s.
Proof.
  split.
  - intros [pre [post ->]]. apply elem_of_app. right. apply list_elem_of_here.
  - intros H. apply list_elem_of_split in H as [pre [post ->]]. by exists pre, post.
Qed.

Lemma chars_all_in_spec dg lt up sy p :
  chars_all_in dg lt up sy p = true <-> forall c, c ∈ p -> c ∈ dg ++ lt ++ up ++ sy.
Proof.
  tidy.
  induction p as [|c p IH]; simpl.
  - split; [intros _ c H; by apply elem_of_nil in H | done].
  - destruct ((indexOf dg [c] =? -1) && (indexOf lt [c] =? -1)
              && (indexOf up [c] =? -1) && (indexOf sy [c] =? -1)) eqn:E.
    + split; [done|]. intros H. exfalso.
      rewrite !andb_true_iff, !Z.eqb_eq, !indexOf_spec, !Substring_singleton in E.
      specialize (H c (list_elem_of_here _ _)).
      rewrite !elem_of_app in H. tauto.
    + rewrite IH. split.
      * intros H x Hx. apply elem_of_cons in Hx as [->|Hx]; [|by apply H].
        rewrite !andb_false_iff, !Z.eqb_neq, !indexOf_found, !Substring_singleton in E.
        rewrite !elem_of_app. tauto.
      * intros H x Hx. apply H. by apply list_elem_of_further.
Qed.

Lemma passwordCharactersAreValid_spec p :
  _passwordCharactersAreValid p = true
  <-> forall c, c ∈ p -> c ∈ allowed_characters.
Proof. apply chars_all_in_spec. Qed.

Lemma passwordCharactersAreValid_false p :
  _passwordCharactersAreValid p = false
  <-> exists c, c ∈ p /\ c ∉ allowed_characters.
Proof.
  tidy.
  split.
  - intros H.
    destruct (decide (Exists (fun c => c ∉ allowed_characters) p)) as [E|E].
    + apply Exists_exists in E. exact E.
    + exfalso. apply not_Exists_Forall in E; [|intros x; apply _].
      rewrite Forall_forall in E.
      assert (_passwordCharactersAreValid p = true); [|congruence].
      apply passwordCharactersAreValid_spec. intros c Hc.
      specialize (E c Hc). simpl in E.
      destruct (decide (c ∈ allowed_characters)); tauto.
  - intros [c [Hc Hn]]. apply not_true_is_false. intros H.
    rewrite passwordCharactersAreValid_spec in H. auto.
Qed.

Lemma restricts_characters_spec :
  match passwordStrengthOptions Settings with
  | Some pso => bool_decide (allowAnyChars pso = Some true)
  | None => false
  end = false <-> restricts_characters.
Proof.
  unfold restricts_characters. destruct (passwordStrengthOptions Settings) as [pso|].
  - rewrite bool_decide_eq_false. split.
    + intros H pso' [= <-]. done.
    + intros H. by apply H.
  - split; [intros _ pso [=] | done].
Qed.

Lemma maximum_length_spec n :
  (n >? (if or_number (configured_length ≫= length_max) 72 >? 72 then 72
         else or_number (configured_length ≫= length_max) 72)) = true
  <-> maximum_length < n.
Proof.
  unfold maximum_length. rewrite Z.gtb_ltb, Z.ltb_lt.
  destruct (Z.gtb_spec (or_number (configured_length ≫= length_max) 72) 72); lia.
Qed.

(** validatePassword, check by check. *)
Lemma validatePassword_Some p email :
  validatePassword (Some p) email =
    if Z.of_nat (length p) <? minimum_length
    then Some (InvalidPasswordError too_short)
    else if Z.of_nat (length p) >?
              (if or_number (configured_length ≫= length_max) 72 >? 72 then 72
               else or_number (configured_length ≫= length_max) 72)
    then Some (InvalidPasswordError too_long)
    else if negb match passwordStrengthOptions Settings with
                 | Some pso => bool_decide (allowAnyChars pso = Some true)
                 | None => false
                 end && negb (_passwordCharactersAreValid p)
    then Some (InvalidPasswordError invalid_character)
    else match email with
         | Some (c :: r) =>
             if negb (indexOf p (c :: r) =? -1)
                || negb (indexOf p (split_head at_sign (c :: r)) =? -1)
             then Some (InvalidPasswordError contains_email)
             else None
         | _ => None
         end.
Proof. reflexivity. Qed.

(** C5. [validatePassword] reports a code exactly when that rule is
    violated and no rule earlier in the order [not_set], [too_short],
    [too_long], [invalid_character], [contains_email] is; in particular a
    password shorter than the minimum that contains the email (or its part
    before the at sign) gets [too_short], not [contains_email]. *)
Theorem validatePassword_reports_first_violation (password email : option jsstring) :
  (forall code,
      validatePassword password email = Some (InvalidPasswordError code)
      <-> Violates password email code
          /\ forall earlier, (check_rank earlier < check_rank code)%nat ->
                             ~ Violates password email earlier)
  /\ (forall p,
        password = Some p ->
        Z.of_nat (length p) < minimum_length ->
        Violates password email contains_email ->
        validatePassword password email = Some (InvalidPasswordError too_short)
        /\ validatePassword password email
           <> Some (InvalidPasswordError contains_email)).
Proof.
  split.
  2:{ intros p -> Hlen _. rewrite validatePassword_Some.
      apply Z.ltb_lt in Hlen. rewrite Hlen. split; congruence. }
  intros code. destruct password as [p|].
  2:{ simpl. split.
      - intros [= <-]. split; [done|]. simpl. lia.
      - intros [Hv He]. destruct code; try done; exfalso;
          apply (He not_set); simpl; (lia || done). }
  rewrite validatePassword_Some.
  assert (Hns : ~ Violates (Some p) email not_set) by (simpl; congruence).
  destruct (Z.of_nat (length p) <? minimum_length) eqn:Hmin.
  { apply Z.ltb_lt in Hmin.
    assert (Violates (Some p) email too_short) as Hv by (simpl; eauto).
    split.
    - intros [= <-]. split; [done|]. intros [] Hr; simpl in Hr; try lia. done.
    - intros [Hc He]. destruct code; try done; try tauto; exfalso;
        (apply (He too_short); [simpl; lia | done]). }
  apply Z.ltb_ge in Hmin.
  assert (Hts : ~ Violates (Some p) email too_short).
  { simpl. intros [p' [[= <-] H]]. lia. }
  match goal with |- context [if ?b then _ else _] => destruct b eqn:Hmax end.
  { apply maximum_length_spec in Hmax.
    assert (Violates (Some p) email too_long) as Hv by (simpl; eauto).
    split.
    - intros [= <-]. split; [done|]. intros [] Hr; simpl in Hr; try lia; done.
    - intros [Hc He]. destruct code; try done; try tauto; exfalso;
        (apply (He too_long); [simpl; lia | done]). }
  assert (Htl : ~ Violates (Some p) email too_long).
  { simpl. intros [p' [[= <-] H]]. apply maximum_length_spec in H. congruence. }
  match goal with |- context [if ?b then _ else _] => destruct b eqn:Hch end.
  { apply andb_true_iff in Hch as [Hr Hc].
    apply negb_true_iff in Hr, Hc. apply restricts_characters_spec in Hr.
    apply passwordCharactersAreValid_false in Hc as [c [Hc1 Hc2]].
    assert (Violates (Some p) email invalid_character) as Hv.
    { simpl. exists p, c. auto. }
    split.
    - intros [= <-]. split; [done|]. intros [] Hk; simpl in Hk; try lia; done.
    - intros [Hcd He]. destruct code; try done; try tauto; exfalso;
        (apply (He invalid_character); [simpl; lia | done]). }
  assert (Hic : ~ Violates (Some p) email invalid_character).
  { simpl. intros [p' [c [[= <-] [Hr [Hc1 Hc2]]]]].
    apply restricts_characters_spec in Hr. rewrite Hr in Hch. simpl in Hch.
    apply negb_false_iff in Hch. rewrite passwordCharactersAreValid_spec in Hch. auto. }
  assert (Hce : (exists c r, email = Some (c :: r)
                    /\ (negb (indexOf p (c :: r) =? -1)
                        || negb (indexOf p (split_head at_sign (c :: r)) =? -1)) = true)
                <-> Violates (Some p) email contains_email).
  { simpl. split.
    - intros [c [r [-> H]]]. exists p, (c :: r). split; [done|]. split; [done|].
      split; [done|]. apply orb_true_iff in H.
      rewrite !negb_true_iff, !Z.eqb_neq, !indexOf_found in H. exact H.
    - intros [p' [e [[= <-] [-> [Hne H]]]]]. destruct e as [|c r]; [done|].
      exists c, r. split; [done|]. apply orb_true_iff.
      rewrite !negb_true_iff, !Z.eqb_neq, !indexOf_found. exact H. }
  split.
  - intros H. assert (code = contains_email) as ->.
    { destruct email as [[|c r]|]; try done.
      match type of H with (if ?b then _ else _) = _ => destruct b end; congruence. }
    split.
    + apply Hce. destruct email as [[|c r]|]; try done.
      match type of H with (if ?b then _ else _) = _ => destruct b eqn:E end; [|done].
      eauto.
    + intros [] Hr; simpl in Hr; try lia; done.
  - intros [Hv He]. destruct code; try tauto.
    apply Hce in Hv as [c [r [-> Hv]]]. by rewrite Hv.
Qed.

(** C4 (as amended). An absent password ([null] or [undefined]) gets
    [not_set], whatever the settings; the empty string is a password that is
    present, and gets [too_short] whenever the minimum length is positive. *)
Theorem validatePassword_absent_not_set :
  (forall email, validatePassword None email = Some (InvalidPasswordError not_set))
  /\ (forall email,
        0 < minimum_length ->
        validatePassword (Some []) email = Some (InvalidPasswordError too_short)).
Proof.
  split; [reflexivity|]. intros email Hmin. rewrite validatePassword_Some.
  apply Z.ltb_lt in Hmin. change (Z.of_nat (length (@nil N))) with 0.
  by rewrite Hmin.
Qed.

Lemma perform_eq {A} (a : Action A) w :
  perform a w = match next_call_fails w with
                | Some e => (Err (CollaboratorError e), next_fault w)
                | None => handle a (next_fault w)
                end.
Proof.
  unfold perform, next_call_fails. by destruct (faults w) as [|[e|] fs].
Qed.

Lemma perform_answers {A} (a : Action A) w :
  next_call_fails w = None -> perform a w = handle a (next_fault w).
Proof. intros H. by rewrite perform_eq, H. Qed.

Lemma perform_fails {A} (a : Action A) w e :
  next_call_fails w = Some e -> perform a w = (Err (CollaboratorError e), next_fault w).
Proof. intros H. by rewrite perform_eq, H. Qed.

(** The background check changes neither the world nor what is delivered. *)
Lemma run_background_irrelevant {R} (p : Prog R) h1 h2 w :
  (run h1 p w).2 = (run h2 p w).2
  /\ delivered (run h1 p w).1 = delivered (run h2 p w).1
  /\ background_checks (run h1 p w).1 = background_checks (run h2 p w).1.
Proof.
  revert w. induction p as [|A a k IH|k IH|k IH|r k IH|pw k IH|]; intros w; simpl; auto.
  - destruct (perform a w) as [r w1]. specialize (IH r w1).
    destruct (run h1 (k r) w1), (run h2 (k r) w1). simpl in *. tauto.
  - specialize (IH w). destruct (run h1 k w), (run h2 k w). simpl in *.
    destruct IH as (-> & -> & ->). auto.
  - specialize (IH w). destruct (run h1 k w), (run h2 k w). simpl in *.
    destruct IH as (-> & -> & ->). auto.
Qed.

Lemma run_without_background {R} (p : Prog R) h w :
  (run h (without_background p) w).2 = (run h p w).2
  /\ delivered (run h (without_background p) w).1 = delivered (run h p w).1
  /\ background_checks (run h (without_background p) w).1 = [].
Proof.
  revert w. induction p as [|A a k IH|k IH|k IH|r k IH|pw k IH|]; intros w; simpl; auto.
  - destruct (perform a w) as [r w1]. specialize (IH r w1).
    destruct (run h (k r) w1), (run h (without_background (k r)) w1). simpl in *. tauto.
  - specialize (IH w). destruct (run h k w), (run h (without_background k) w). simpl in *.
    destruct IH as (-> & -> & ->). auto.
  - specialize (IH w). destruct (run h k w), (run h (without_background k) w). simpl in *.
    tauto.
Qed.

Lemma run_only_background {R} (p : Prog R) bs h w :
  only_background p = Some bs ->
  run h p w = (map (fun pw => EvBackground pw (h pw)) bs, w).
Proof.
  revert bs. induction p as [|A a k IH|k IH|k IH|r k IH|pw k IH|]; intros bs; simpl; try done.
  - by intros [= <-].
  - destruct (only_background k) as [bs'|]; simpl; [|done].
    intros [= <-]. by rewrite (IH bs').
Qed.

Lemma perform_answer {A} (a : Action A) w : answer (perform a w).1.
Proof.
  rewrite perform_eq. destruct (next_call_fails w); simpl; [eauto|].
  destruct a; simpl; try done.
  - by destruct (store_updateOne _ _ _).
  - by destruct (store_updateOne _ _ _).
  - unfold store_save. destruct (_ !! _); simpl; eauto.
Qed.

Lemma run_Settles {R} (Post : Res R -> list jsstring -> Prop) (p : Prog R) h w :
  Settles Post p ->
  exists pre r bs,
    (run h p w).1 = pre ++ EvDeliver r :: map (fun pw => EvBackground pw (h pw)) bs
    /\ Forall is_call pre /\ Post r bs.
Proof.
  intros HS. revert w. induction HS as [A a k _ IH|k _ IH|k _ IH|r k bs Hb HP]; intros w; simpl.
  - pose proof (perform_answer a w) as Ha.
    destruct (perform a w) as [r w1]. destruct (IH r Ha w1) as (pre & r' & bs & E & Hpre & HP).
    destruct (run h (k r) w1) as [t w2]. simpl in *. subst t.
    exists (EvCall a r :: pre), r', bs. split; [done|]. split; [|done].
    constructor; [exact I | done].
  - apply IH.
  - apply IH.
  - rewrite (run_only_background k bs h w Hb). simpl.
    exists [], r, bs. split; [done|]. split; [constructor | done].
Qed.

Lemma run_Issues {R} (P : forall A, Action A -> Prop)
    (Rel : gmap ObjectId UserDoc -> gmap ObjectId UserDoc -> Prop) (p : Prog R) h w :
  (forall m, Rel m m) ->
  (forall m1 m2 m3, Rel m1 m2 -> Rel m2 m3 -> Rel m1 m3) ->
  (forall A (a : Action A) w, P A a -> Rel (users w) (users (perform a w).2)) ->
  Issues P p -> Rel (users w) (users (run h p w).2).
Proof.
  intros Hrefl Htrans Hstep HI. revert w.
  induction HI as [|A a k Ha _ IH|k _ IH|k _ IH|r k _ IH|pw k _ IH|]; intros w; simpl; auto.
  - specialize (Hstep A a w Ha). destruct (perform a w) as [r w1].
    specialize (IH r w1). destruct (run h (k r) w1) as [t w2]. simpl in *. eauto.
  - apply (IH _ (next_seed w)).
  - specialize (IH w). by destruct (run h k w).
  - specialize (IH w). by destruct (run h k w).
Qed.

Lemma run_Issues_calls {R} (P : forall A, Action A -> Prop) (sel : forall A, Action A -> bool)
    (p : Prog R) h w :
  (forall A (a : Action A), P A a -> sel A a = false) ->
  Issues P p -> count_calls sel (run h p w).1 = 0%nat.
Proof.
  intros Hsel HI. revert w.
  induction HI as [|A a k Ha _ IH|k _ IH|k _ IH|r k _ IH|pw k _ IH|]; intros w; simpl; auto.
  - destruct (perform a w) as [r w1].
    specialize (IH r w1). destruct (run h (k r) w1) as [t w2]. 
    unfold count_calls in *. simpl in *. by rewrite (Hsel _ _ Ha).
  - specialize (IH w). by destruct (run h k w).
  - specialize (IH w). by destruct (run h k w).
Qed.

Lemma apply_assign_loginEpoch a d : loginEpoch (apply_assign a d) = loginEpoch d.
Proof. by destruct a. Qed.

Lemma foldl_assign_loginEpoch l d :
  loginEpoch (foldl (fun d a => apply_assign a d) d l) = loginEpoch d.
Proof.
  revert d. induction l as [|a l IH]; intros d; simpl; [done|].
  by rewrite IH, apply_assign_loginEpoch.
Qed.

Lemma apply_update_loginEpoch u d :
  loginEpoch (apply_update u d) = loginEpoch d + default 0 (upd_inc_loginEpoch u).
Proof.
  unfold apply_update.
  destruct (upd_inc_loginEpoch u), (upd_unset_password u); simpl;
    rewrite foldl_assign_loginEpoch; lia.
Qed.

Lemma store_findOne_Some q m user :
  store_findOne q m = Some user ->
  m !! _id user = Some (fields user) /\ modified user = []
  /\ matches q (_id user) (fields user) = true.
Proof.
  unfold store_findOne.
  destruct (List.find _ (map_to_list m)) as [[id d]|] eqn:E; [|done].
  intros [= <-]. simpl. apply find_some in E as [Hin Hq].
  apply list_elem_of_In, elem_of_map_to_list in Hin. auto.
Qed.

Lemma store_findOne_None q m :
  store_findOne q m = None -> forall id d, m !! id = Some d -> matches q id d = false.
Proof.
  unfold store_findOne.
  destruct (List.find _ (map_to_list m)) as [[id d]|] eqn:E; [done|].
  intros _ id d H. apply elem_of_map_to_list, list_elem_of_In in H.
  apply (find_none _ _ E) in H. exact H.
Qed.

(** The conditioned update on a stale epoch, or a missing account. *)
Lemma store_updateOne_stale id n u m :
  (forall d, m !! id = Some d -> loginEpoch d <> n) ->
  store_updateOne {| filter_id := id; filter_loginEpoch := Some n |} u m
  = ({| matched := 0; modified_n := 0 |}, m).
Proof.
  intros H. unfold store_updateOne. simpl. destruct (m !! id) as [d|]; [|done].
  specialize (H d eq_refl). apply Z.eqb_neq in H. by rewrite H.
Qed.

Lemma store_updateOne_hit f u m d :
  m !! filter_id f = Some d ->
  (forall n, filter_loginEpoch f = Some n -> loginEpoch d = n) ->
  store_updateOne f u m
  = ({| matched := 1; modified_n := if decide (apply_update u d = d) then 0 else 1 |},
     <[filter_id f := apply_update u d]> m).
Proof.
  intros Hd Hn. unfold store_updateOne. rewrite Hd.
  destruct (filter_loginEpoch f) as [n|]; [|done].
  by rewrite (Hn n eq_refl), Z.eqb_refl.
Qed.

Lemma store_updateOne_epochs f u m n :
  upd_inc_loginEpoch u = n ->
  forall id d, m !! id = Some d ->
    exists d', (store_updateOne f u m).2 !! id = Some d'
               /\ (loginEpoch d' = loginEpoch d
                   \/ loginEpoch d' = loginEpoch d + default 0 n).
Proof.
  intros Hn id d Hd. unfold store_updateOne.
  destruct (m !! filter_id f) as [d0|] eqn:E; simpl; [|eauto].
  destruct (match filter_loginEpoch f with Some n => _ | None => true end); simpl; [|eauto].
  destruct (decide (filter_id f = id)) as [Heq|Hne].
  - rewrite Heq in *. rewrite Hd in E. injection E as <-.
    rewrite lookup_insert_eq. eexists. split; [done|].
    rewrite apply_update_loginEpoch, Hn. by right.
  - rewrite lookup_insert_ne by done. eauto.
Qed.

Lemma store_save_epochs user m :
  epochs_kept m (store_save user m).2.
Proof.
  intros id d Hd. unfold store_save.
  destruct (m !! _id user) as [d0|] eqn:E; simpl; [|eauto].
  destruct (decide (_id user = id)) as [Heq|Hne].
  - rewrite Heq in *. rewrite Hd in E. injection E as <-.
    rewrite lookup_insert_eq. eexists. split; [done|].
    by rewrite foldl_assign_loginEpoch.
  - rewrite lookup_insert_ne by done. eauto.
Qed.

Lemma epochs_kept_refl m : epochs_kept m m.
Proof. intros id d H. eauto. Qed.

Lemma epochs_kept_trans m1 m2 m3 :
  epochs_kept m1 m2 -> epochs_kept m2 m3 -> epochs_kept m1 m3.
Proof.
  intros H1 H2 id d Hd. destruct (H1 id d Hd) as (d' & Hd' & E1).
  destruct (H2 id d' Hd') as (d'' & Hd'' & E2). exists d''. split; [done|]. congruence.
Qed.

Lemma epochs_grow_refl m : epochs_grow m m.
Proof. intros id d H. exists d. split; [done|lia]. Qed.

Lemma epochs_grow_trans m1 m2 m3 :
  epochs_grow m1 m2 -> epochs_grow m2 m3 -> epochs_grow m1 m3.
Proof.
  intros H1 H2 id d Hd. destruct (H1 id d Hd) as (d' & Hd' & E1).
  destruct (H2 id d' Hd') as (d'' & Hd'' & E2). exists d''. split; [done|]. lia.
Qed.

Lemma epochs_kept_grow m m' : epochs_kept m m' -> epochs_grow m m'.
Proof. intros H id d Hd. destruct (H id d Hd) as (d' & ? & ?). exists d'. split; [done|lia]. Qed.



Lemma register_new_user_epochs details w :
  epochs_kept (users w) (users (register_new_user details w).2).
Proof.
  intros id d Hd. unfold register_new_user. simpl.
  assert (fresh (dom (users w)) <> id) as Hne.
  { intros <-. apply (is_fresh (dom (users w))). apply elem_of_dom. eauto. }
  rewrite lookup_insert_ne by done. eauto.
Qed.

Lemma handle_keeps_epoch {A} (a : Action A) w :
  keeps_epoch A a -> epochs_kept (users w) (users (handle a w).2).
Proof.
  destruct a; simpl; intros Hk; try apply epochs_kept_refl.
  - destruct (store_updateOne filter update (users w)) as [r m] eqn:E. simpl.
    intros id d Hd.
    destruct (store_updateOne_epochs filter update (users w) _ Hk id d Hd) as (d' & H1 & H2).
    rewrite E in H1. exists d'. split; [done|]. simpl in H2. lia.
  - destruct (store_updateOne filter update (users w)) as [r m] eqn:E. simpl.
    intros id d Hd.
    destruct (store_updateOne_epochs filter update (users w) _ Hk id d Hd) as (d' & H1 & H2).
    rewrite E in H1. exists d'. split; [done|]. simpl in H2. lia.
  - pose proof (store_save_epochs user (users w)) as H.
    destruct (store_save user (users w)) as [r m]. exact H.
  - apply register_new_user_epochs.
Qed.

Lemma handle_raises_epoch {A} (a : Action A) w :
  raises_epoch A a -> epochs_grow (users w) (users (handle a w).2).
Proof.
  destruct a; simpl; intros Hk; try apply epochs_grow_refl.
  - destruct (store_updateOne filter update (users w)) as [r m] eqn:E. simpl.
    intros id d Hd.
    destruct (store_updateOne_epochs filter update (users w) _ eq_refl id d Hd) as (d' & H1 & H2).
    rewrite E in H1. exists d'. split; [done|].
    destruct (upd_inc_loginEpoch update) as [n|]; simpl in H2; [|lia].
    specialize (Hk n eq_refl). lia.
  - destruct (store_updateOne filter update (users w)) as [r m] eqn:E. simpl.
    intros id d Hd.
    destruct (store_updateOne_epochs filter update (users w) _ eq_refl id d Hd) as (d' & H1 & H2).
    rewrite E in H1. exists d'. split; [done|].
    destruct (upd_inc_loginEpoch update) as [n|]; simpl in H2; [|lia].
    specialize (Hk n eq_refl). lia.
  - apply epochs_kept_grow.
    pose proof (store_save_epochs user (users w)) as H.
    destruct (store_save user (users w)) as [r m]. exact H.
  - apply epochs_kept_grow, register_new_user_epochs.
Qed.

Lemma handle_reads_only {A} (a : Action A) w :
  reads_only A a -> users (handle a w).2 = users w.
Proof. destruct a; simpl; intros Hk; try done. Qed.

Lemma perform_keeps_epoch {A} (a : Action A) w :
  keeps_epoch A a -> epochs_kept (users w) (users (perform a w).2).
Proof.
  intros H. rewrite perform_eq. destruct (next_call_fails w).
  - apply epochs_kept_refl.
  - apply (handle_keeps_epoch a (next_fault w) H).
Qed.

Lemma perform_raises_epoch {A} (a : Action A) w :
  raises_epoch A a -> epochs_grow (users w) (users (perform a w).2).
Proof.
  intros H. rewrite perform_eq. destruct (next_call_fails w).
  - apply epochs_grow_refl.
  - apply (handle_raises_epoch a (next_fault w) H).
Qed.

Lemma perform_reads_only {A} (a : Action A) w :
  reads_only A a -> users (perform a w).2 = users w.
Proof.
  intros H. rewrite perform_eq. destruct (next_call_fails w); [done|].
  apply (handle_reads_only a (next_fault w) H).
Qed.

Lemma Issues_impl {R} (P Q : forall A, Action A -> Prop) (p : Prog R) :
  (forall A a, P A a -> Q A a) -> Issues P p -> Issues Q p.
Proof. intros H HI. induction HI; constructor; auto. Qed.

Lemma Issues_seq {R} (P : forall A, Action A -> Prop) (p q : Prog R) :
  Issues P p -> Issues P q -> Issues P (seq p q).
Proof. intros Hp Hq. induction Hp; simpl; try constructor; auto. Qed.

Lemma rehash_keeps_epoch A a : rehash_call A a -> keeps_epoch A a.
Proof. destruct a; simpl; tauto. Qed.

Lemma rehash_not_conditioned A a : rehash_call A a -> conditioned a = false.
Proof. destruct a; simpl; try tauto. by intros [-> _]. Qed.

Lemma login_raises_epoch A a : login_call A a -> raises_epoch A a.
Proof.
  destruct a; simpl; try tauto.
  - intros [_ ->] n [= <-]. lia.
  - intros [_ ->] n [=].
Qed.

Lemma rehash_login A a : rehash_call A a -> login_call A a.
Proof. destruct a; simpl; tauto. Qed.

Lemma link_keeps_epoch A a : link_call A a -> keeps_epoch A a.
Proof. destruct a; simpl; tauto. Qed.



Lemma setUserPasswordInV2_Issues {R} user password (callback : Res bool -> Prog R) :
  (forall r, Issues rehash_call (callback r)) ->
  Issues rehash_call (setUserPasswordInV2 user password callback).
Proof.
  intros Hcb. unfold setUserPasswordInV2.
  destruct user as [user|]; [|done].
  destruct (negb _); [done|].
  destruct (validatePassword _ _); [done|].
  destruct password as [password|]; [|done].
  unfold hashPassword. constructor; [exact I|]. intros [e|salt]; [done|].
  constructor; [exact I|]. intros [e|hash]; [done|].
  constructor; [done|]. intros [e|result]; [done|].
  apply Issues_seq; [|repeat constructor].
  unfold _checkWriteResult. by destruct (_ =? _).
Qed.

Lemma checkRounds_Issues {R} user hp password (callback : option Error -> Prog R) :
  (forall r, Issues rehash_call (callback r)) ->
  Issues rehash_call (checkRounds user hp password callback).
Proof.
  intros Hcb. unfold checkRounds.
  destruct (disableBcryptRoundsUpgrades _); [done|].
  destruct (_ <? _); [|done].
  apply setUserPasswordInV2_Issues. by intros [e|b].
Qed.

Lemma authenticate_updated_Issues user hp password m r :
  Issues rehash_call (authenticate_updated user hp password m toplevel r).
Proof.
  unfold authenticate_updated, toplevel.
  destruct r as [e|result]; [repeat constructor|].
  destruct (negb _); [repeat constructor|].
  destruct (negb m); [repeat constructor|].
  apply checkRounds_Issues. intros [e|]; repeat constructor.
Qed.

Lemma authenticate_Issues query password :
  Issues login_call (authenticate query password toplevel).
Proof.
  constructor; [exact I|]. intros [e|[user|]]; try (repeat constructor).
  unfold authenticate_found.
  destruct (hashedPassword (fields user)) as [[|c hp]|]; try (repeat constructor).
  intros [e|m]; [repeat constructor|].
  unfold authenticate_compared.
  destruct (negb m); repeat (constructor; try done); intros;
    apply (Issues_impl rehash_call); auto using rehash_login, authenticate_updated_Issues.
Qed.

Lemma setUserPassword_Issues user password :
  Issues rehash_call (setUserPassword user password toplevel : Prog bool).
Proof. apply setUserPasswordInV2_Issues. intros r. repeat constructor. Qed.

Lemma doPassportLogin_Issues claims :
  Issues link_call (doPassportLogin claims toplevel).
Proof.
  constructor; [exact I|]. intros [e|user]; [repeat constructor|].
  unfold createIfNotExistAndLogin.
  assert (Issues link_call
    (RandomBytes (fun pass =>
      Call (registerNewUser
              {| details_email := claims_email claims;
                 details_first_name := given_name claims;
                 details_last_name := family_name claims;
                 details_password := pass |})
        (fun r =>
           match r with
           | Err error => toplevel (Err error)
           | Ok user =>
               let user := assign user (set_admin false) in
               match emails (fields user) with
               | [] => Throw
               | _ :: _ =>
                   NewDate (fun now =>
                     let user := assign user (set_emails_0_confirmedAt now) in
                     let user := assign user (push_thirdPartyIdentifiers (sub claims)) in
                     Call (Document_save user) (fun r =>
                       match r with
                       | Err err => toplevel (Err err)
                       | Ok result => toplevel (Ok result)
                       end))
               end
           end)))) as Hcreate.
  { constructor. intros pass. constructor; [exact I|]. intros [e|u]; [repeat constructor|].
    simpl. destruct (emails (fields u)); [constructor|].
    constructor. intros now. constructor; [exact I|]. intros [e'|u']; repeat constructor. }
  destruct user as [user|]; [|exact Hcreate].
  destruct (negb _); [exact Hcreate|].
  constructor; [exact I|]. intros [e|u']; repeat constructor.
Qed.

Lemma Settles_impl {R} (P Q : Res R -> list jsstring -> Prop) (p : Prog R) :
  (forall r bs, P r bs -> Q r bs) -> Settles P p -> Settles Q p.
Proof. intros H HS. induction HS; econstructor; eauto. Qed.

Lemma apply_update_inc_ne u d n :
  upd_inc_loginEpoch u = Some n -> n <> 0 -> apply_update u d <> d.
Proof.
  intros Hu Hn E. pose proof (apply_update_loginEpoch u d) as H.
  rewrite E, Hu in H. simpl in H. lia.
Qed.



Lemma validatePassword_not_conflict password email e :
  validatePassword password email = Some e -> e <> ParallelLoginError.
Proof.
  destruct password as [p|]; [|by intros [= <-]].
  rewrite validatePassword_Some.
  repeat match goal with
         | |- context [if ?b then _ else _] => destruct b
         | |- context [match ?x with _ => _ end] => destruct x
         end; by intros [= <-].
Qed.

Lemma answer_not_conflict {A} (e : Error) :
  answer (A:=A) (Err e) -> e <> ParallelLoginError.
Proof. by intros [f ->]. Qed.

Lemma setUserPasswordInV2_Settles {R} (Post : Res R -> list jsstring -> Prop)
    user password (callback : Res bool -> Prog R) :
  (forall e, e <> ParallelLoginError -> Settles Post (callback (Err e))) ->
  (forall b pw, password = Some pw ->
                Settles Post (seq (callback (Ok b)) (InBackground pw Done))) ->
  Settles Post (setUserPasswordInV2 user password callback).
Proof.
  intros Herr Hok. unfold setUserPasswordInV2.
  destruct user as [user|]; [|by apply Herr].
  destruct (negb _); [by apply Herr|].
  destruct (validatePassword _ _) as [e|] eqn:Hv.
  { apply Herr. by eapply validatePassword_not_conflict. }
  destruct password as [password|]; [|by apply Herr].
  unfold hashPassword. constructor. intros [e|salt] Ha.
  { apply Herr. by eapply answer_not_conflict. }
  constructor. intros [e|hash] Ha'.
  { apply Herr. by eapply answer_not_conflict. }
  constructor. intros [e|result] Ha''.
  { apply Herr. by eapply answer_not_conflict. }
  unfold _checkWriteResult. destruct (_ =? _); by apply Hok.
Qed.

Lemma setUserPassword_Settles user password :
  Settles (password_set_settled password)
    (setUserPassword user password toplevel).
Proof.
  apply setUserPasswordInV2_Settles.
  - intros e He. by econstructor.
  - intros b pw ->. econstructor; [done|]. simpl. eauto.
Qed.

Lemma checkRounds_Settles {R} (Post : Res R -> list jsstring -> Prop)
    user hp password (callback : option Error -> Prog R) :
  (forall e, e <> ParallelLoginError -> Settles Post (callback (Some e))) ->
  Settles Post (callback None) ->
  Settles Post (seq (callback None) (InBackground password Done)) ->
  Settles Post (checkRounds user hp password callback).
Proof.
  intros Herr Hnone Hok. unfold checkRounds.
  destruct (disableBcryptRoundsUpgrades _); [done|].
  destruct (_ <? _); [|done].
  apply setUserPasswordInV2_Settles; [done|].
  by intros b pw [= <-].
Qed.

(** Once the conditioned write has landed ([nModified] is 1). *)
Lemma authenticate_landed_Settles user hp password m result :
  nModified result = 1 ->
  Settles (landed_settled user password m)
    (authenticate_updated user hp password m toplevel (Ok result)).
Proof.
  intros Hn. unfold authenticate_updated. rewrite Hn. simpl.
  destruct m; simpl.
  - apply checkRounds_Settles.
    + intros e He. by econstructor.
    + econstructor; [done|]. simpl. auto.
    + econstructor; [done|]. simpl. auto.
  - by econstructor.
Qed.

Lemma landed_login_settled user password m r bs :
  landed_settled user password m r bs -> login_settled password r bs.
Proof. destruct r as [e|[u|]]; simpl; tauto. Qed.

Lemma authenticate_updated_Settles user hp password m r :
  answer r ->
  Settles (login_settled password) (authenticate_updated user hp password m toplevel r).
Proof.
  intros Ha. destruct r as [e|result]; [by econstructor|].
  destruct (decide (nModified result = 1)) as [Hn|Hn].
  - eapply Settles_impl; [|by apply authenticate_landed_Settles].
    apply landed_login_settled.
  - unfold authenticate_updated. apply Z.eqb_neq in Hn. rewrite Hn. simpl.
    by econstructor.
Qed.

Lemma authenticate_compared_Settles user hp password r :
  answer r ->
  Settles (login_settled password) (authenticate_compared user hp password toplevel r).
Proof.
  intros Ha. destruct r as [e|m]; [by econstructor|].
  unfold authenticate_compared. destruct (negb m).
  - constructor. intros now. constructor. intros r Hr.
    by apply authenticate_updated_Settles.
  - constructor. intros r Hr. by apply authenticate_updated_Settles.
Qed.

Lemma authenticate_Settles query password :
  Settles (login_settled password) (authenticate query password toplevel).
Proof.
  constructor. intros [e|[user|]] Ha; try by econstructor.
  unfold authenticate_found.
  destruct (hashedPassword (fields user)) as [[|c hp]|]; try by econstructor.
  constructor. intros r Hr. by apply authenticate_compared_Settles.
Qed.

Lemma run_Call_answers {R A} h (a : Action A) (k : Res A -> Prog R) w :
  next_call_fails w = None ->
  run h (Call a k) w
  = (EvCall a (handle a (next_fault w)).1 :: (run h (k (handle a (next_fault w)).1) (handle a (next_fault w)).2).1,
     (run h (k (handle a (next_fault w)).1) (handle a (next_fault w)).2).2).
Proof.
  intros H. simpl. rewrite (perform_answers _ _ H).
  destruct (handle a (next_fault w)) as [r w1]. simpl. by destruct (run h (k r) w1).
Qed.

Lemma run_Call_fails {R A} h (a : Action A) (k : Res A -> Prog R) w f :
  next_call_fails w = Some f ->
  run h (Call a k) w
  = (EvCall a (Err (CollaboratorError f)) :: (run h (k (Err (CollaboratorError f))) (next_fault w)).1,
     (run h (k (Err (CollaboratorError f))) (next_fault w)).2).
Proof.
  intros H. simpl. rewrite (perform_fails _ _ _ H).
  by destruct (run h (k _) (next_fault w)).
Qed.

Lemma run_NewDate {R} h (k : Z -> Prog R) w :
  run h (NewDate k) w = run h (k (clock w)) w.
Proof. reflexivity. Qed.

Lemma run_Deliver_Done {R} h (r : Res R) w :
  run h (Deliver r Done) w = ([EvDeliver r], w).
Proof. reflexivity. Qed.

Lemma next_fault_users w : users (next_fault w) = users w.
Proof. reflexivity. Qed.

Lemma faults_nil_answers w : faults w = [] -> next_call_fails w = None.
Proof. unfold next_call_fails. by intros ->. Qed.

Lemma faults_nil_next w : faults w = [] -> faults (next_fault w) = [].
Proof. simpl. by intros ->. Qed.

(** The conditioned write of [authenticate] when the epoch read at fetch
    time is no longer the stored one. *)
Lemma authenticate_compared_stale h w user hp password m :
  next_call_fails w = None ->
  (forall d, users w !! _id user = Some d -> loginEpoch d <> loginEpoch (fields user)) ->
  exists u,
    run h (authenticate_compared user hp password toplevel (Ok m)) w
    = ([EvCall (User_updateOne
                  {| filter_id := _id user;
                     filter_loginEpoch := Some (loginEpoch (fields user)) |} u)
               (Ok {| matched := 0; modified_n := 0 |});
        EvDeliver (Err ParallelLoginError)],
       next_fault w).
Proof.
  intros Hf Hstale. unfold authenticate_compared. cbv zeta.
  destruct (negb m); [rewrite run_NewDate|]; rewrite run_Call_answers by done;
    cbn [handle]; rewrite next_fault_users, store_updateOne_stale by done;
    cbn [fst snd authenticate_updated nModified modified_n Z.eqb negb];
    eexists; unfold toplevel; rewrite run_Deliver_Done; cbn [fst snd];
    f_equal; by destruct w.
Qed.

Lemma authenticate_compared_lands h w user hp password m d :
  next_call_fails w = None ->
  users w !! _id user = Some d ->
  loginEpoch d = loginEpoch (fields user) ->
  run h (authenticate_compared user hp password toplevel (Ok m)) w
  = (EvCall (User_updateOne
               {| filter_id := _id user;
                  filter_loginEpoch := Some (loginEpoch (fields user)) |}
               (login_update (clock w) m))
            (Ok {| matched := 1; modified_n := 1 |})
       :: (run h (authenticate_updated user hp password m toplevel
                    (Ok {| matched := 1; modified_n := 1 |}))
             (with_users (next_fault w)
                (<[_id user := apply_update (login_update (clock w) m) d]> (users w)))).1,
     (run h (authenticate_updated user hp password m toplevel
               (Ok {| matched := 1; modified_n := 1 |}))
        (with_users (next_fault w)
           (<[_id user := apply_update (login_update (clock w) m) d]> (users w)))).2).
Proof.
  intros Hf Hd He. unfold authenticate_compared.
  assert (forall u, upd_inc_loginEpoch u = Some 1 ->
    store_updateOne {| filter_id := _id user;
                       filter_loginEpoch := Some (loginEpoch (fields user)) |} u (users w)
    = ({| matched := 1; modified_n := 1 |}, <[_id user := apply_update u d]> (users w))) as Hhit.
  { intros u Hu. rewrite (store_updateOne_hit _ u _ d); simpl; try done.
    - destruct (decide _) as [E|E]; [|done].
      by apply (apply_update_inc_ne u d 1) in E.
    - by intros n [= <-]. }
  cbv zeta. destruct m; cbn [negb]; [|rewrite run_NewDate];
    rewrite run_Call_answers by done; cbn [handle];
    rewrite next_fault_users, Hhit by done; reflexivity.
Qed.

Lemma delivered_Settles {R} (Post : Res R -> list jsstring -> Prop) (t : list (Event R)) :
  (exists pre r bs h,
     t = pre ++ EvDeliver r :: map (fun pw => EvBackground pw (h pw)) bs
     /\ Forall is_call pre /\ Post r bs) ->
  exists r bs, delivered t = [r] /\ background_checks t = bs /\ Post r bs.
Proof.
  intros (pre & r & bs & h & -> & Hpre & HP). exists r, bs.
  assert (delivered pre = [] /\ background_checks pre = []) as [E1 E2].
  { clear -Hpre. induction Hpre as [|e pre He _ [IH1 IH2]]; [done|].
    destruct e; try done. }
  assert (forall l : list jsstring,
            delivered (R:=R) (map (fun pw => EvBackground pw (h pw)) l) = []
            /\ background_checks (R:=R) (map (fun pw => EvBackground pw (h pw)) l) = l)
    as Hbg.
  { induction l as [|x l [IH1 IH2]]; [done|]. split; [done|].
    unfold background_checks in *. cbn [map omap list_omap]. by f_equal. }
  destruct (Hbg bs) as [E3 E4].
  unfold delivered, background_checks in *.
  rewrite !omap_app, E1, E2. cbn [omap list_omap app]. rewrite E3, E4. done.
Qed.



Lemma count_calls_cons {R A} (sel : forall A, Action A -> bool) (a : Action A) r
    (t : list (Event R)) :
  count_calls sel (EvCall a r :: t)
  = ((if sel A a then 1 else 0) + count_calls sel t)%nat.
Proof. unfold count_calls. simpl. by destruct (sel A a). Qed.

Lemma run_delivers {R} (Post : Res R -> list jsstring -> Prop) (p : Prog R) h w :
  Settles Post p ->
  exists r bs, delivered (run h p w).1 = [r]
               /\ background_checks (run h p w).1 = bs /\ Post r bs.
Proof.
  intros HS. apply delivered_Settles.
  destruct (run_Settles Post p h w HS) as (pre & r & bs & E & Hpre & HP).
  by exists pre, r, bs, h.
Qed.

(** After the conditioned write has landed the account keeps the new epoch,
    no further conditioned update is issued, and the caller is never told
    of a conflict. *)
Lemma authenticate_landed h w user hp password m result :
  nModified result = 1 ->
  epochs_kept (users w)
    (users (run h (authenticate_updated user hp password m toplevel (Ok result)) w).2)
  /\ count_calls (@conditioned)
       (run h (authenticate_updated user hp password m toplevel (Ok result)) w).1 = 0%nat
  /\ Err ParallelLoginError
       ∉ delivered (run h (authenticate_updated user hp password m toplevel (Ok result)) w).1.
Proof.
  intros Hn. split; [|split].
  - apply (run_Issues keeps_epoch).
    + apply epochs_kept_refl.
    + apply epochs_kept_trans.
    + intros A a w'. apply perform_keeps_epoch.
    + eapply Issues_impl; [apply rehash_keeps_epoch|apply authenticate_updated_Issues].
  - apply (run_Issues_calls rehash_call).
    + apply rehash_not_conditioned.
    + apply authenticate_updated_Issues.
  - destruct (run_delivers _ _ h w
                (authenticate_landed_Settles user hp password m result Hn))
      as (r & bs & -> & _ & HP).
    intros Hin. apply list_elem_of_singleton in Hin as <-. simpl in HP. tauto.
Qed.

(** C1. The conditioned write of [authenticate], run in any world in which
    the store answers.  When the stored [loginEpoch] of the account is not
    the one read at fetch time (or the account is gone) the caller gets
    [ParallelLoginError], which is not the generic failure, and the
    collection is left exactly as it was.  When the epoch still matches the
    write lands: the account ends with the epoch read plus one, exactly one
    conditioned update was issued, the caller is not told of a conflict,
    and a second caller that holds the same snapshot then gets
    [ParallelLoginError] and changes nothing. *)
Theorem authenticate_epoch_conflict h w user hp password m :
  let write := authenticate_compared user hp password toplevel (Ok m) in
  let expected := loginEpoch (fields user) in
  next_call_fails w = None ->
  ((forall d, users w !! _id user = Some d -> loginEpoch d <> expected) ->
     delivered (run h write w).1 = [Err ParallelLoginError]
     /\ (Err ParallelLoginError : Res (option User)) <> Ok None
     /\ users (run h write w).2 = users w)
  /\ (forall d, users w !! _id user = Some d -> loginEpoch d = expected ->
        (exists d', users (run h write w).2 !! _id user = Some d'
                    /\ loginEpoch d' = expected + 1)
        /\ count_calls (@conditioned) (run h write w).1 = 1%nat
        /\ (Err ParallelLoginError ∉ delivered (run h write w).1)
        /\ forall h' hp' password' m',
             next_call_fails (run h write w).2 = None ->
             delivered (run h' (authenticate_compared user hp' password' toplevel (Ok m'))
                          (run h write w).2).1 = [Err ParallelLoginError]
             /\ users (run h' (authenticate_compared user hp' password' toplevel (Ok m'))
                         (run h write w).2).2 = users (run h write w).2).
Proof.
  intros write expected Hf. split.
  - intros Hstale.
    destruct (authenticate_compared_stale
                h w user hp password m Hf Hstale) as [u E].
    subst write. rewrite E. simpl. done.
  - intros d Hd He. subst write.
    rewrite (authenticate_compared_lands
               h w user hp password m d Hf Hd He).
    cbn [fst snd].
    set (w1 := with_users (next_fault w)
                 (<[_id user := apply_update (login_update (clock w) m) d]> (users w))).
    destruct (authenticate_landed h w1 user hp password m
                {| matched := 1; modified_n := 1 |} eq_refl) as (Hk & Hc & Hp).
    assert (exists d', users (run h (authenticate_updated user hp password m toplevel
                                 (Ok {| matched := 1; modified_n := 1 |})) w1).2
                       !! _id user = Some d' /\ loginEpoch d' = expected + 1) as Hd'.
    { destruct (Hk (_id user) (apply_update (login_update (clock w) m) d))
        as (d' & H1 & H2).
      - subst w1. simpl. apply lookup_insert_eq.
      - exists d'. split; [done|]. rewrite H2, apply_update_loginEpoch. simpl. lia. }
    split; [exact Hd'|]. split.
    { by rewrite count_calls_cons, Hc. }
    split; [exact Hp|].
    intros h' hp' password' m' Hf'.
    destruct Hd' as (d' & Hd1 & Hd2).
    destruct (authenticate_compared_stale
                h' _ user hp' password' m' Hf') as [u E].
    { intros d0 Hd0. rewrite Hd1 in Hd0. injection Hd0 as <-. lia. }
    rewrite E. simpl. done.
Qed.

Lemma authenticate_reaches_write h w query password user c hp :
  next_call_fails w = None ->
  store_findOne query (users w) = Some user ->
  hashedPassword (fields user) = Some (c :: hp) ->
  next_call_fails (next_fault w) = None ->
  run h (authenticate query password toplevel) w
  = (EvCall (User_findOne query) (Ok (Some user))
       :: EvCall (bcrypt_compare password (c :: hp))
            (Ok (compare bcrypt password (c :: hp)))
       :: (run h (authenticate_compared user (c :: hp) password toplevel
                    (Ok (compare bcrypt password (c :: hp))))
             (next_fault (next_fault w))).1,
     (run h (authenticate_compared user (c :: hp) password toplevel
               (Ok (compare bcrypt password (c :: hp))))
        (next_fault (next_fault w))).2).
Proof.
  intros Hf Hfind Hhash Hf'. unfold authenticate.
  rewrite run_Call_answers by done. cbn [handle fst snd].
  rewrite next_fault_users, Hfind. cbn [authenticate_found]. rewrite Hhash.
  rewrite run_Call_answers by done. reflexivity.
Qed.

Lemma authenticate_compared_first_call h w user hp password m :
  exists r t,
    (run h (authenticate_compared user hp password toplevel (Ok m)) w).1
    = EvCall (User_updateOne
                {| filter_id := _id user;
                   filter_loginEpoch := Some (loginEpoch (fields user)) |}
                (login_update (clock w) m)) r :: t
    /\ count_calls (@conditioned) t = 0%nat.
Proof.
  unfold authenticate_compared. cbv zeta.
  destruct m; cbn [negb]; [|rewrite run_NewDate]; cbn [run].
  - destruct (perform _ w) as [r w1] eqn:E.
    destruct (run h _ w1) as [t w2] eqn:E'. exists r, t. split; [done|].
    change t with (t, w2).1. rewrite <- E'.
    apply (run_Issues_calls rehash_call); [apply rehash_not_conditioned|].
    apply authenticate_updated_Issues.
  - destruct (perform _ w) as [r w1] eqn:E.
    destruct (run h _ w1) as [t w2] eqn:E'. exists r, t. split; [done|].
    change t with (t, w2).1. rewrite <- E'.
    apply (run_Issues_calls rehash_call); [apply rehash_not_conditioned|].
    apply authenticate_updated_Issues.
Qed.

Lemma authenticate_wrong_password h w query password user c hp :
  next_call_fails w = None ->
  store_findOne query (users w) = Some user ->
  hashedPassword (fields user) = Some (c :: hp) ->
  next_call_fails (next_fault w) = None ->
  compare bcrypt password (c :: hp) = false ->
  next_call_fails (next_fault (next_fault w)) = None ->
  run h (authenticate query password toplevel) w
  = ([EvCall (User_findOne query) (Ok (Some user));
      EvCall (bcrypt_compare password (c :: hp)) (Ok false);
      EvCall (User_updateOne
                {| filter_id := _id user;
                   filter_loginEpoch := Some (loginEpoch (fields user)) |}
                (login_update (clock w) false))
        (Ok {| matched := 1; modified_n := 1 |});
      EvDeliver (Ok None)],
     with_users (next_fault (next_fault (next_fault w)))
       (<[_id user := apply_update (login_update (clock w) false) (fields user)]>
          (users w))).
Proof.
  intros Hf Hfind Hhash Hf' Hcmp Hf''.
  rewrite (authenticate_reaches_write h w query password user c hp) by done.
  rewrite Hcmp.
  destruct (store_findOne_Some _ _ _ Hfind) as (Hd & _ & _).
  rewrite (authenticate_compared_lands h _ user (c :: hp) password false (fields user))
    by done.
  reflexivity.
Qed.

(** C3. For an identifier that matches no account, and for an account
    without [hashedPassword], [authenticate] hands the caller the generic
    failure whatever the password; the read is the only call it makes, the
    collection is left as it was, and the result is the one a wrong password
    gets. *)
Theorem authenticate_unknown_or_passwordless h w query password :
  next_call_fails w = None ->
  (store_findOne query (users w) = None
   \/ exists user, store_findOne query (users w) = Some user
                   /\ hashedPassword (fields user) = None) ->
  run h (authenticate query password toplevel) w
  = ([EvCall (User_findOne query) (Ok (store_findOne query (users w)));
      EvDeliver (Ok None)],
     next_fault w)
  /\ delivered (run h (authenticate query password toplevel) w).1 = [Ok None]
  /\ count_calls (@writes) (run h (authenticate query password toplevel) w).1 = 0%nat
  /\ users (run h (authenticate query password toplevel) w).2 = users w
  /\ forall w' query' password' user' c hp,
       faults w' = [] ->
       store_findOne query' (users w') = Some user' ->
       hashedPassword (fields user') = Some (c :: hp) ->
       compare bcrypt password' (c :: hp) = false ->
       delivered (run h (authenticate query' password' toplevel) w').1
       = delivered (run h (authenticate query password toplevel) w).1.
Proof.
  intros Hf Hcase.
  assert (run h (authenticate query password toplevel) w
          = ([EvCall (User_findOne query) (Ok (store_findOne query (users w)));
              EvDeliver (Ok None)], next_fault w)) as E.
  { unfold authenticate. rewrite run_Call_answers by done. cbn [handle fst snd].
    rewrite next_fault_users.
    destruct Hcase as [Hnone|(user & Hsome & Hhash)].
    - rewrite Hnone. reflexivity.
    - rewrite Hsome. cbn [authenticate_found]. rewrite Hhash. reflexivity. }
  rewrite E. split; [done|]. split; [done|]. split; [done|]. split; [done|].
  intros w' query' password' user' c hp Hnil Hfind Hhash Hcmp.
  rewrite (authenticate_wrong_password h w' query' password' user' c hp); try done.
  all: unfold next_call_fails; simpl; by rewrite Hnil.
Qed.

(** C2. The write step of [authenticate], in whatever world it runs, starts
    with one update conditioned on the epoch read at fetch time, which
    increments [loginEpoch] by 1 and, when the password did not match, sets
    [lastFailedLogin] to the current time; no other conditioned update
    follows.  A call of [authenticate] that finds an account with a
    [hashedPassword] and gets the comparison reaches that step; on a
    mismatch the generic failure is delivered after the update, which has
    stored the new epoch and the failure time.  No operation lowers the
    [loginEpoch] of any account. *)
Theorem authenticate_conditioned_increment :
  (forall h w user hp password m,
     (exists r t,
        (run h (authenticate_compared user hp password toplevel (Ok m)) w).1
        = EvCall (User_updateOne
                    {| filter_id := _id user;
                       filter_loginEpoch := Some (loginEpoch (fields user)) |}
                    {| upd_inc_loginEpoch := Some 1;
                       upd_set := if m then [] else [set_lastFailedLogin (clock w)];
                       upd_unset_password := false |}) r :: t)
     /\ count_calls (@conditioned)
          (run h (authenticate_compared user hp password toplevel (Ok m)) w).1 = 1%nat)
  /\ (forall h w query password user c hp,
        next_call_fails w = None ->
        store_findOne query (users w) = Some user ->
        hashedPassword (fields user) = Some (c :: hp) ->
        next_call_fails (next_fault w) = None ->
        count_calls (@conditioned) (run h (authenticate query password toplevel) w).1
        = 1%nat
        /\ (compare bcrypt password (c :: hp) = false ->
            next_call_fails (next_fault (next_fault w)) = None ->
            exists d,
              (run h (authenticate query password toplevel) w).1
              = [EvCall (User_findOne query) (Ok (Some user));
                 EvCall (bcrypt_compare password (c :: hp)) (Ok false);
                 EvCall (User_updateOne
                           {| filter_id := _id user;
                              filter_loginEpoch := Some (loginEpoch (fields user)) |}
                           {| upd_inc_loginEpoch := Some 1;
                              upd_set := [set_lastFailedLogin (clock w)];
                              upd_unset_password := false |})
                   (Ok {| matched := 1; modified_n := 1 |});
                 EvDeliver (Ok None)]
              /\ users (run h (authenticate query password toplevel) w).2 !! _id user
                 = Some d
              /\ loginEpoch d = loginEpoch (fields user) + 1
              /\ lastFailedLogin d = Some (clock w)))
  /\ (forall h w query password,
        epochs_grow (users w) (users (run h (authenticate query password toplevel) w).2))
  /\ (forall h w user password,
        epochs_grow (users w)
          (users (run h (setUserPassword user password toplevel : Prog bool) w).2))
  /\ (forall h w claims,
        epochs_grow (users w) (users (run h (doPassportLogin claims toplevel) w).2)).
Proof.
  split; [|split; [|split; [|split]]].
  - intros h w user hp password m.
    destruct (authenticate_compared_first_call h w user hp password m) as (r & t & E & Hc).
    split; [by exists r, t|]. by rewrite E, count_calls_cons, Hc.
  - intros h w query password user c hp Hf Hfind Hhash Hf'. split.
    + rewrite (authenticate_reaches_write h w query password user c hp) by done.
      cbn [fst]. rewrite !count_calls_cons. cbn [conditioned].
      destruct (authenticate_compared_first_call h (next_fault (next_fault w)) user (c :: hp)
                  password (compare bcrypt password (c :: hp))) as (r & t & E & Hc).
      by rewrite E, count_calls_cons, Hc.
    + intros Hcmp Hf''.
      rewrite (authenticate_wrong_password h w query password user c hp) by done.
      eexists. split; [reflexivity|]. cbn [snd users with_users].
      split; [apply lookup_insert_eq|].
      split; [rewrite apply_update_loginEpoch; reflexivity|]. reflexivity.
  - intros h w query password. apply (run_Issues raises_epoch).
    + apply epochs_grow_refl.
    + apply epochs_grow_trans.
    + intros A a w'. apply perform_raises_epoch.
    + eapply Issues_impl; [apply login_raises_epoch|apply authenticate_Issues].
  - intros h w user password. apply epochs_kept_grow, (run_Issues keeps_epoch).
    + apply epochs_kept_refl.
    + apply epochs_kept_trans.
    + intros A a w'. apply perform_keeps_epoch.
    + eapply Issues_impl; [apply rehash_keeps_epoch|apply setUserPassword_Issues].
  - intros h w claims. apply epochs_kept_grow, (run_Issues keeps_epoch).
    + apply epochs_kept_refl.
    + apply epochs_kept_trans.
    + intros A a w'. apply perform_keeps_epoch.
    + eapply Issues_impl; [apply link_keeps_epoch|apply doPassportLogin_Issues].
Qed.

Lemma delivered_calls_app {R} (pre t : list (Event R)) :
  Forall is_call pre -> delivered (pre ++ t) = delivered t.
Proof.
  intros H. induction H as [|e pre He _ IH]; [done|].
  destruct e; try done.
Qed.

Lemma delivered_cons_call {R A} (a : Action A) r (t : list (Event R)) :
  delivered (EvCall a r :: t) = delivered t.
Proof. reflexivity. Qed.

Lemma count_calls_app {R} (sel : forall A, Action A -> bool) (t1 t2 : list (Event R)) :
  count_calls sel (t1 ++ t2) = (count_calls sel t1 + count_calls sel t2)%nat.
Proof. unfold count_calls. by rewrite List.filter_app, length_app. Qed.

(** The update document of the password-set path. *)
Lemma apply_update_set_password hashed d :
  apply_update {| upd_inc_loginEpoch := None;
                  upd_set := [set_hashedPassword hashed];
                  upd_unset_password := true |} d
  = {| email := email d; first_name := first_name d; last_name := last_name d;
       hashedPassword := Some hashed; password := None;
       loginEpoch := loginEpoch d; lastFailedLogin := lastFailedLogin d;
       thirdPartyIdentifiers := thirdPartyIdentifiers d; admin := admin d;
       emails := emails d |}.
Proof. reflexivity. Qed.

(** How a call of [setUserPasswordInV2] on a user and a password runs: it
    ends in the callback with an error, the collection untouched, or it
    issues the salt, the hash and the one update and goes on with the
    callback, then the background check. *)
Lemma setUserPasswordInV2_run {R} h w user password (callback : Res bool -> Prog R) :
  (exists e pre w',
      run h (setUserPasswordInV2 (Some user) (Some password) callback) w
      = (pre ++ (run h (callback (Err e)) w').1, (run h (callback (Err e)) w').2)
      /\ Forall is_call pre /\ users w' = users w)
  \/ (exists w',
        let salt := genSalt bcrypt BCRYPT_ROUNDS BCRYPT_MINOR_VERSION (seed w) in
        let hashed := hash bcrypt password salt in
        let update := {| upd_inc_loginEpoch := None;
                         upd_set := [set_hashedPassword hashed];
                         upd_unset_password := true |} in
        let filter := {| filter_id := _id user; filter_loginEpoch := None |} in
        let result := (store_updateOne filter update (users w)).1 in
        let rest := seq (_checkWriteResult result callback) (InBackground password Done) in
        validatePassword (Some password) (email (fields user)) = None
        /\ run h (setUserPasswordInV2 (Some user) (Some password) callback) w
           = ([EvCall (bcrypt_genSalt BCRYPT_ROUNDS BCRYPT_MINOR_VERSION) (Ok salt);
               EvCall (bcrypt_hash password salt) (Ok hashed);
               EvCall (db_users_updateOne filter update) (Ok result)]
                ++ (run h rest w').1,
              (run h rest w').2)
        /\ users w' = (store_updateOne filter update (users w)).2).
Proof.
  unfold setUserPasswordInV2.
  destruct (negb _).
  { left. exists InvalidUserObject, [], w.
    split; [by destruct (run h _ w)|]. by split. }
  destruct (validatePassword _ _) as [e|] eqn:Hv.
  { left. exists e, [], w. split; [by destruct (run h _ w)|]. by split. }
  unfold hashPassword.
  destruct (next_call_fails w) as [f|] eqn:Hf.
  { left. rewrite (run_Call_fails _ _ _ _ f) by done.
    eexists _, [_], _. split; [reflexivity|].
    split; [repeat constructor|reflexivity]. }
  rewrite run_Call_answers by done. cbn [handle fst snd].
  destruct (next_call_fails (next_seed (next_fault w))) as [f|] eqn:Hf'.
  { left. rewrite (run_Call_fails _ _ _ _ f) by done.
    eexists _, [_; _], _. split; [reflexivity|].
    split; [repeat constructor|reflexivity]. }
  rewrite run_Call_answers by done. cbn [handle fst snd].
  destruct (next_call_fails (next_fault (next_seed (next_fault w)))) as [f|] eqn:Hf''.
  { left. rewrite (run_Call_fails _ _ _ _ f) by done.
    eexists _, [_; _; _], _. split; [reflexivity|].
    split; [repeat constructor|reflexivity]. }
  rewrite run_Call_answers by done. cbn [handle].
  right. cbv zeta.
  change (users (next_fault (next_fault (next_seed (next_fault w))))) with (users w).
  change (seed (next_fault w)) with (seed w).
  destruct (store_updateOne _ _ (users w)) as [result m'] eqn:E.
  eexists. split; [done|]. split; [reflexivity|]. reflexivity.
Qed.

(** C10. When [setUserPassword] reports a modified record, the account was
    in the collection and policy validation had passed, and the call made
    exactly one write: the update that sets [hashedPassword] to the new hash
    and unsets the legacy [password]; the stored record differs from the
    previous one in these two fields only, and every other account is as
    before. *)
Theorem setUserPassword_sets_hash_and_unsets_password h w user password :
  delivered (run h (setUserPassword (Some user) (Some password) toplevel) w).1
  = [Ok true] ->
  exists d hashed result t,
    users w !! _id user = Some d
    /\ validatePassword (Some password) (email (fields user)) = None
    /\ hashed = hash bcrypt password
                  (genSalt bcrypt BCRYPT_ROUNDS BCRYPT_MINOR_VERSION (seed w))
    /\ (run h (setUserPassword (Some user) (Some password) toplevel) w).1
       = t ++ [EvCall (db_users_updateOne
                         {| filter_id := _id user; filter_loginEpoch := None |}
                         {| upd_inc_loginEpoch := None;
                            upd_set := [set_hashedPassword hashed];
                            upd_unset_password := true |}) (Ok result);
               EvDeliver (Ok true);
               EvBackground password (h password)]
    /\ count_calls (@writes) (run h (setUserPassword (Some user) (Some password) toplevel) w).1
       = 1%nat
    /\ users (run h (setUserPassword (Some user) (Some password) toplevel) w).2
       = <[_id user :=
             {| email := email d; first_name := first_name d; last_name := last_name d;
                hashedPassword := Some hashed; password := None;
                loginEpoch := loginEpoch d; lastFailedLogin := lastFailedLogin d;
                thirdPartyIdentifiers := thirdPartyIdentifiers d; admin := admin d;
                emails := emails d |}]> (users w).
Proof.
  unfold setUserPassword. intros Hd.
  destruct (setUserPasswordInV2_run h w user password (toplevel (R:=bool)))
    as [(e & pre & w' & E & Hpre & _)|(w' & Hv & E & Hw')].
  { rewrite E in Hd. cbn [fst] in Hd. rewrite delivered_calls_app in Hd by done.
    discriminate Hd. }
  cbv zeta in E, Hw'. rewrite E in Hd |- *. cbn [fst snd] in Hd |- *.
  unfold store_updateOne in *. cbn [filter_id filter_loginEpoch] in *.
  destruct (users w !! _id user) as [d|] eqn:Hlook; [|discriminate Hd].
  cbn [fst snd] in *.
  destruct (decide _) as [Heq|Hne]; [discriminate Hd|].
  eexists d, _, _, [_; _]. split; [done|]. split; [done|]. split; [reflexivity|].
  split; [reflexivity|]. split; [reflexivity|].
  cbn. rewrite Hw'. reflexivity.
Qed.

(** A call of [authenticate] that hands the caller a user has found that
    user, compared its hash successfully, and landed its conditioned
    write; what remains is the rotation check. *)
Lemma authenticate_success_inv h w query password user :
  delivered (run h (authenticate query password toplevel) w).1 = [Ok (Some user)] ->
  exists c hp,
    store_findOne query (users w) = Some user
    /\ hashedPassword (fields user) = Some (c :: hp)
    /\ compare bcrypt password (c :: hp) = true
    /\ next_call_fails w = None
    /\ next_call_fails (next_fault w) = None
    /\ next_call_fails (next_fault (next_fault w)) = None
    /\ run h (authenticate query password toplevel) w
       = (EvCall (User_findOne query) (Ok (Some user))
            :: EvCall (bcrypt_compare password (c :: hp)) (Ok true)
            :: EvCall (User_updateOne
                         {| filter_id := _id user;
                            filter_loginEpoch := Some (loginEpoch (fields user)) |}
                         (login_update (clock w) true))
                 (Ok {| matched := 1; modified_n := 1 |})
            :: (run h (authenticate_updated user (c :: hp) password true toplevel
                         (Ok {| matched := 1; modified_n := 1 |}))
                  (with_users (next_fault (next_fault (next_fault w)))
                     (<[_id user := apply_update (login_update (clock w) true)
                                      (fields user)]> (users w)))).1,
          (run h (authenticate_updated user (c :: hp) password true toplevel
                    (Ok {| matched := 1; modified_n := 1 |}))
             (with_users (next_fault (next_fault (next_fault w)))
                (<[_id user := apply_update (login_update (clock w) true)
                                 (fields user)]> (users w)))).2).
Proof.
  intros Hd.
  destruct (next_call_fails w) as [f|] eqn:Hf.
  { unfold authenticate in Hd. rewrite (run_Call_fails _ _ _ _ f) in Hd by done.
    discriminate Hd. }
  destruct (store_findOne query (users w)) as [u|] eqn:Hfind.
  2:{ unfold authenticate in Hd. rewrite run_Call_answers in Hd by done.
      cbn [handle fst snd] in Hd. rewrite next_fault_users, Hfind in Hd.
      discriminate Hd. }
  destruct (hashedPassword (fields u)) as [[|c hp]|] eqn:Hhash.
  1,3: unfold authenticate in Hd; rewrite run_Call_answers in Hd by done;
       cbn [handle fst snd] in Hd; rewrite next_fault_users, Hfind in Hd;
       cbn [authenticate_found] in Hd; rewrite Hhash in Hd; discriminate Hd.
  destruct (next_call_fails (next_fault w)) as [f|] eqn:Hf'.
  { unfold authenticate in Hd. rewrite run_Call_answers in Hd by done.
    cbn [handle fst snd] in Hd. rewrite next_fault_users, Hfind in Hd.
    cbn [authenticate_found] in Hd. rewrite Hhash in Hd.
    rewrite (run_Call_fails _ _ _ _ f) in Hd by done. discriminate Hd. }
  rewrite (authenticate_reaches_write h w query password u c hp) in Hd |- * by done.
  destruct (store_findOne_Some _ _ _ Hfind) as (Hlook & _ & _).
  destruct (next_call_fails (next_fault (next_fault w))) as [f|] eqn:Hf''.
  { exfalso. revert Hd. unfold authenticate_compared. cbv zeta.
    destruct (negb _); [rewrite run_NewDate|];
      rewrite (run_Call_fails _ _ _ _ f) by done; discriminate. }
  rewrite (authenticate_compared_lands h _ u (c :: hp) password _ (fields u))
    in Hd |- * by done.
  destruct (compare bcrypt password (c :: hp)) eqn:Hcmp.
  2:{ discriminate Hd. }
  assert (u = user) as ->.
  { cbn [fst] in Hd.
    change (delivered (run h (authenticate_updated u (c :: hp) password true toplevel
                        (Ok {| matched := 1; modified_n := 1 |}))
              (with_users (next_fault (next_fault (next_fault w)))
                 (<[_id u := apply_update (login_update (clock w) true) (fields u)]>
                    (users w)))).1 = [Ok (Some user)]) in Hd.
    destruct (run_delivers _ _ h
                (with_users (next_fault (next_fault (next_fault w)))
                   (<[_id u := apply_update (login_update (clock w) true) (fields u)]>
                      (users w)))
                (authenticate_landed_Settles u (c :: hp) password true
                   {| matched := 1; modified_n := 1 |} eq_refl))
      as (r & bs & E & _ & HP).
    rewrite E in Hd. injection Hd as ->. simpl in HP. symmetry. tauto. }
  exists c, hp. repeat split; done.
Qed.

(** C6. With a bcrypt whose hashes carry the cost of their salt and verify
    their password, and upgrades not disabled: when [authenticate] hands the
    caller a user whose stored hash has a cost below [BCRYPT_ROUNDS], the
    password verified against the stored hash, and the account ends with a
    different hash, of cost [BCRYPT_ROUNDS], against which the same password
    verifies. *)
Theorem authenticate_rotates_hash h w query password user stored :
  (forall pw s, compare bcrypt pw
                  (hash bcrypt pw (genSalt bcrypt BCRYPT_ROUNDS BCRYPT_MINOR_VERSION s))
                = true) ->
  (forall pw s, getRounds bcrypt
                  (hash bcrypt pw (genSalt bcrypt BCRYPT_ROUNDS BCRYPT_MINOR_VERSION s))
                = BCRYPT_ROUNDS) ->
  disableBcryptRoundsUpgrades (security Settings) = false ->
  delivered (run h (authenticate query password toplevel) w).1 = [Ok (Some user)] ->
  hashedPassword (fields user) = Some stored ->
  getRounds bcrypt stored < BCRYPT_ROUNDS ->
  compare bcrypt password stored = true
  /\ exists d replacement,
       users (run h (authenticate query password toplevel) w).2 !! _id user = Some d
       /\ hashedPassword d = Some replacement
       /\ replacement <> stored
       /\ getRounds bcrypt replacement = BCRYPT_ROUNDS
       /\ compare bcrypt password replacement = true.
Proof.
  intros Hverify Hcost Hupgrade Hd Hstored Hlow.
  destruct (authenticate_success_inv h w query password user Hd)
    as (c & hp & Hfind & Hhash & Hcmp & Hf & Hf' & Hf'' & E).
  rewrite Hstored in Hhash. injection Hhash as ->. split; [done|].
  rewrite E in Hd |- *. cbn [fst snd] in Hd |- *.
  set (w3 := with_users (next_fault (next_fault (next_fault w)))
               (<[_id user := apply_update (login_update (clock w) true) (fields user)]>
                  (users w))) in *.
  revert Hd. unfold authenticate_updated.
  cbn [nModified modified_n Z.eqb Pos.eqb negb].
  unfold checkRounds. rewrite Hupgrade.
  apply Z.ltb_lt in Hlow as Hlow'. rewrite Hlow'. unfold setUserPassword.
  match goal with
  | |- context [setUserPasswordInV2 (Some user) (Some password) ?cb] =>
      destruct (setUserPasswordInV2_run h w3 user password cb)
        as [(e & pre & w' & E' & Hpre & _)|(w' & Hv & E' & Hw')]
  end.
  { rewrite E'. cbn [fst]. intros Hd.
    rewrite !delivered_cons_call, delivered_calls_app in Hd by done.
    discriminate Hd. }
  cbv zeta in E', Hw'. rewrite E'. cbn [fst snd]. intros _.
  assert (users w3 !! _id user
          = Some (apply_update (login_update (clock w) true) (fields user))) as Hlook.
  { subst w3. simpl. apply lookup_insert_eq. }
  rewrite (store_updateOne_hit {| filter_id := _id user; filter_loginEpoch := None |}
             _ _ _ Hlook) in Hw' |- * by done.
  cbn [fst snd filter_id] in Hw' |- *.
  unfold _checkWriteResult.
  eexists _, _. split.
  { destruct (_ =? _); simpl; rewrite Hw'; apply lookup_insert_eq. }
  split; [reflexivity|]. split.
  { intros Heq. rewrite <- Heq, Hcost in Hlow. lia. }
  split; [apply Hcost | apply Hverify].
Qed.

(** ** The background checks against the calls made *)

Lemma count_answered_snoc {R} sel (pre : list (Event R)) (e : Event R) :
  count_answered sel (pre ++ [e])
  = (count_answered sel pre + count_answered sel [e])%nat.
Proof. unfold count_answered. by rewrite List.filter_app, List.length_app. Qed.

Lemma count_answered_snoc_other {R A} (pre : list (Event R)) (a : Action A) r :
  hash_update a && is_ok r = false ->
  count_answered (@hash_update) (pre ++ [EvCall a r]) = count_answered (@hash_update) pre.
Proof.
  intros H. rewrite count_answered_snoc. unfold count_answered at 2. simpl.
  rewrite H. simpl. lia.
Qed.

Lemma run_SettlesFrom {R} (Post : list (Event R) -> Res R -> list jsstring -> Prop)
    (p : Prog R) pre0 h w :
  SettlesFrom Post pre0 p ->
  exists pre r bs,
    (run h p w).1 = pre ++ EvDeliver r :: map (fun pw => EvBackground pw (h pw)) bs
    /\ Forall is_call pre /\ Post (pre0 ++ pre) r bs.
Proof.
  intros HS. revert w.
  induction HS as [A a k pre0 _ IH|k pre0 _ IH|k pre0 _ IH|r k bs pre0 Hb HP];
    intros w; simpl.
  - pose proof (perform_answer a w) as Ha.
    destruct (perform a w) as [r w1]. destruct (IH r Ha w1) as (pre & r' & bs & E & Hpre & HP).
    destruct (run h (k r) w1) as [t w2]. simpl in *. subst t.
    exists (EvCall a r :: pre), r', bs. split; [done|]. split.
    + constructor; [exact I | done].
    + by rewrite <- List.app_assoc in HP.
  - apply IH.
  - apply IH.
  - rewrite (run_only_background k bs h w Hb). simpl.
    exists [], r, bs. split; [done|]. split; [constructor|]. by rewrite List.app_nil_r.
Qed.

(** [setUserPasswordInV2] reports an error before the store has answered a
    hash update, and schedules its check once the store has answered it. *)
Lemma setUserPasswordInV2_SettlesFrom {R}
    (Post : list (Event R) -> Res R -> list jsstring -> Prop)
    user password (callback : Res bool -> Prog R) pre :
  (forall e pre',
     e <> ParallelLoginError ->
     count_answered (@hash_update) pre' = count_answered (@hash_update) pre ->
     SettlesFrom Post pre' (callback (Err e))) ->
  (forall b pw pre',
     password = Some pw ->
     count_answered (@hash_update) pre' = S (count_answered (@hash_update) pre) ->
     SettlesFrom Post pre' (seq (callback (Ok b)) (InBackground pw Done))) ->
  SettlesFrom Post pre (setUserPasswordInV2 user password callback).
Proof.
  intros Herr Hok. unfold setUserPasswordInV2.
  destruct user as [user|]; [|by apply Herr].
  destruct (negb _); [by apply Herr|].
  destruct (validatePassword _ _) as [e|] eqn:Hv.
  { apply Herr; [by eapply validatePassword_not_conflict | done]. }
  destruct password as [password|]; [|by apply Herr].
  unfold hashPassword. constructor. intros [e|salt] Ha.
  { apply Herr; [by eapply answer_not_conflict|]. by apply count_answered_snoc_other. }
  constructor. intros [e|hash] Ha'.
  { apply Herr; [by eapply answer_not_conflict|].
    by rewrite !count_answered_snoc_other. }
  constructor. intros [e|result] Ha''.
  { apply Herr; [by eapply answer_not_conflict|].
    by rewrite !count_answered_snoc_other. }
  assert (count_answered (@hash_update)
            (((pre ++ [EvCall (bcrypt_genSalt BCRYPT_ROUNDS BCRYPT_MINOR_VERSION) (Ok salt)])
              ++ [EvCall (bcrypt_hash password salt) (Ok hash)])
             ++ [EvCall (db_users_updateOne
                           {| filter_id := _id user; filter_loginEpoch := None |}
                           {| upd_inc_loginEpoch := None;
                              upd_set := [set_hashedPassword hash];
                              upd_unset_password := true |}) (Ok result)])
          = S (count_answered (@hash_update) pre)) as Hcount.
  { rewrite count_answered_snoc, !count_answered_snoc_other by done.
    unfold count_answered at 2. simpl. lia. }
  unfold _checkWriteResult. destruct (_ =? _); by apply Hok.
Qed.

Lemma setUserPassword_SettlesFrom user password :
  SettlesFrom
    (fun pre r bs =>
       password_set_settled password r bs /\ password_set_checked password pre r bs)
    [] (setUserPassword user password toplevel).
Proof.
  apply setUserPasswordInV2_SettlesFrom.
  - intros e pre' He Hc. apply SettlesFrom_Deliver with (bs := []); [done|].
    simpl in *. auto.
  - intros b pw pre' -> Hc. apply SettlesFrom_Deliver with (bs := [pw]); [done|].
    simpl in *. split; exists pw; auto.
Qed.

(** [checkRounds] either goes on at once, when no rotation is due, or goes
    through [setUserPassword], whose check then follows what the callback
    does. *)
Lemma checkRounds_SettlesFrom {R}
    (Post : list (Event R) -> Res R -> list jsstring -> Prop)
    user hp password (callback : option Error -> Prog R) pre :
  (forall e pre',
     e <> ParallelLoginError ->
     count_answered (@hash_update) pre' = count_answered (@hash_update) pre ->
     SettlesFrom Post pre' (callback (Some e))) ->
  (rotation_due hp = false -> SettlesFrom Post pre (callback None)) ->
  (forall pre',
     rotation_due hp = true ->
     count_answered (@hash_update) pre' = S (count_answered (@hash_update) pre) ->
     SettlesFrom Post pre' (seq (callback None) (InBackground password Done))) ->
  SettlesFrom Post pre (checkRounds user hp password callback).
Proof.
  intros Herr Hnone Hok. unfold checkRounds, rotation_due in *.
  destruct (disableBcryptRoundsUpgrades _); [by apply Hnone|].
  destruct (_ <? _); [|by apply Hnone].
  apply setUserPasswordInV2_SettlesFrom; [done|].
  intros b pw pre' [= <-] Hc. by apply Hok.
Qed.

Lemma login_checked_settled password pre r bs :
  login_checked password pre r bs -> login_settled password r bs.
Proof.
  destruct r as [e|[u|]]; simpl; try tauto.
  intros (hp & _ & _ & ->). destruct (rotation_due hp); auto.
Qed.

Lemma authenticate_updated_SettlesFrom user hp password m r pre :
  hashedPassword (fields user) = Some hp ->
  count_answered (@hash_update) pre = 0%nat ->
  SettlesFrom (login_checked password) pre
    (authenticate_updated user hp password m toplevel r).
Proof.
  intros Hhash Hc. destruct r as [e|result]; [by econstructor|].
  unfold authenticate_updated. destruct (negb (_ =? _)); [by econstructor|].
  destruct m; simpl; [|by econstructor].
  apply checkRounds_SettlesFrom.
  - intros e pre' _ Hc'. econstructor; [done|]. simpl. split; [lia|done].
  - intros Hdue. econstructor; [done|]. simpl.
    exists hp. rewrite Hdue. auto.
  - intros pre' Hdue Hc'. econstructor; [done|]. simpl.
    exists hp. rewrite Hdue. split; [done|]. split; [lia|done].
Qed.

Lemma authenticate_SettlesFrom query password :
  SettlesFrom (login_checked password) [] (authenticate query password toplevel).
Proof.
  constructor. intros [e|[user|]] Ha; try by econstructor.
  unfold authenticate_found.
  destruct (hashedPassword (fields user)) as [[|c hp]|] eqn:Hhash; try by econstructor.
  constructor. intros [e|m] Hr; [by econstructor|].
  unfold authenticate_compared. destruct (negb m).
  - constructor. intros now. constructor. intros r _.
    by apply authenticate_updated_SettlesFrom.
  - constructor. intros r _. by apply authenticate_updated_SettlesFrom.
Qed.

(** C9 (as amended). [authenticate] and [setUserPassword] invoke the
    caller's callback exactly once, after their last collaborator call, and
    only then schedule background checks.  After a successful
    authentication the password is checked twice when the hash was rotated
    (the stored hash was due for rotation and the store has answered the
    hash update) and once when it was not (no hash update was made); after
    a password-set call there is one check exactly when the store has
    answered the hash update; a call that ends in an error, before any hash
    update was answered, schedules none.  What is delivered and the world
    that is left are the same whatever the background check finds, and the
    same without it. *)
Theorem background_check_follows_result :
  (forall h w query password,
     exists pre r bs,
       (run h (authenticate query password toplevel) w).1
       = pre ++ EvDeliver r :: map (fun pw => EvBackground pw (h pw)) bs
       /\ Forall is_call pre /\ login_settled password r bs
       /\ login_checked password pre r bs)
  /\ (forall h w user password,
        exists pre r bs,
          (run h (setUserPassword user password toplevel) w).1
          = pre ++ EvDeliver r :: map (fun pw => EvBackground pw (h pw)) bs
          /\ Forall is_call pre /\ password_set_settled password r bs
          /\ password_set_checked password pre r bs)
  /\ (forall h h' w query password,
        let p := authenticate query password toplevel in
        delivered (run h p w).1 = delivered (run h' p w).1
        /\ (run h p w).2 = (run h' p w).2
        /\ delivered (run h (without_background p) w).1 = delivered (run h p w).1
        /\ (run h (without_background p) w).2 = (run h p w).2)
  /\ (forall h h' w user password,
        let p : Prog bool := setUserPassword user password toplevel in
        delivered (run h p w).1 = delivered (run h' p w).1
        /\ (run h p w).2 = (run h' p w).2
        /\ delivered (run h (without_background p) w).1 = delivered (run h p w).1
        /\ (run h (without_background p) w).2 = (run h p w).2).
Proof.
  split; [|split; [|split]].
  - intros h w query password.
    destruct (run_SettlesFrom _ _ [] h w (authenticate_SettlesFrom query password))
      as (pre & r & bs & E & Hpre & HP).
    exists pre, r, bs. split; [done|]. split; [done|].
    split; [by eapply login_checked_settled | done].
  - intros h w user password.
    destruct (run_SettlesFrom _ _ [] h w (setUserPassword_SettlesFrom user password))
      as (pre & r & bs & E & Hpre & HS & HC).
    by exists pre, r, bs.
  - intros h h' w query password p.
    destruct (run_background_irrelevant p h h' w) as (H1 & H2 & _).
    destruct (run_without_background p h w) as (H3 & H4 & _). auto.
  - intros h h' w user password p.
    destruct (run_background_irrelevant p h h' w) as (H1 & H2 & _).
    destruct (run_without_background p h w) as (H3 & H4 & _). auto.
Qed.

Lemma run_RandomBytes {R} h (k : jsstring -> Prog R) w :
  run h (RandomBytes k) w = run h (k (randomBytes32hex (seed w))) (next_seed w).
Proof. reflexivity. Qed.

(** The create branch of [createIfNotExistAndLogin] is taken when no
    account was found or the one found has no usable [hashedPassword]. *)
Lemma doPassportLogin_create h w claims :
  next_call_fails w = None ->
  (forall user, store_findOne (Q_thirdPartyIdentifiers (sub claims)) (users w) = Some user ->
                truthy (hashedPassword (fields user)) = false) ->
  exists found t,
    run h (doPassportLogin claims toplevel) w
    = (EvCall (User_findOne (Q_thirdPartyIdentifiers (sub claims))) (Ok found) :: t.1, t.2)
    /\ t = run h (Call (registerNewUser
                          (claim_details claims (randomBytes32hex (seed w))))
                    (fun r =>
                       match r with
                       | Err error => toplevel (Err error)
                       | Ok user =>
                           let user := assign user (set_admin false) in
                           match emails (fields user) with
                           | [] => Throw
                           | _ :: _ =>
                               NewDate (fun now =>
                                 let user := assign user (set_emails_0_confirmedAt now) in
                                 let user :=
                                   assign user (push_thirdPartyIdentifiers (sub claims)) in
                                 Call (Document_save user) (fun r =>
                                   match r with
                                   | Err err => toplevel (Err err)
                                   | Ok result => toplevel (Ok result)
                                   end))
                           end
                       end))
              (next_seed (next_fault w)).
Proof.
  intros Hf Hfind. unfold doPassportLogin. cbv zeta.
  rewrite run_Call_answers by done. cbn [handle fst snd].
  rewrite next_fault_users. eexists _, _. split; [reflexivity|].
  unfold createIfNotExistAndLogin. cbv zeta.
  destruct (store_findOne _ (users w)) as [user|] eqn:E.
  - rewrite (Hfind user eq_refl). cbn [negb]. by rewrite run_RandomBytes.
  - by rewrite run_RandomBytes.
Qed.

(** The create branch when the registration and the save both succeed. *)
Lemma doPassportLogin_created h w claims :
  next_call_fails w = None ->
  (forall user, store_findOne (Q_thirdPartyIdentifiers (sub claims)) (users w) = Some user ->
                truthy (hashedPassword (fields user)) = false) ->
  next_call_fails (next_fault w) = None ->
  next_call_fails (next_fault (next_fault w)) = None ->
  users (run h (doPassportLogin claims toplevel) w).2
  = <[fresh (dom (users w)) :=
        linked_account claims
          (hash bcrypt (randomBytes32hex (seed w))
             (genSalt bcrypt BCRYPT_ROUNDS BCRYPT_MINOR_VERSION (N.succ (seed w))))
          (clock w)]> (users w).
Proof.
  intros Hf Hfind Hf' Hf''.
  destruct (doPassportLogin_create h w claims Hf Hfind) as (found & t & E & Et).
  rewrite E. clear E. subst t.
  rewrite run_Call_answers by done. cbn [handle fst snd].
  unfold register_new_user. cbn [fst snd assign fields emails new_account apply_assign].
  rewrite run_NewDate, run_Call_answers by done. cbn [handle].
  unfold store_save. cbn [_id users with_users next_seed next_fault].
  rewrite lookup_insert_eq.
  unfold toplevel. cbn [fst snd run users with_users].
  rewrite insert_insert_eq. reflexivity.
Qed.

(** C8 (as amended). For a claim whose subject is linked to no account (or
    to one without a usable [hashedPassword]), [linkOrCreate] makes two
    separate writes: the registration collaborator persists the new
    account, then a save marks it confirmed and links the subject.  When
    the registration fails nothing is persisted; when the save fails the
    registered account stays persisted, neither confirmed nor linked, and
    the error is handed to the caller; when both succeed the account is
    stored confirmed and linked, and is the result. *)
Theorem link_creates_in_two_writes h w claims :
  let p := doPassportLogin claims toplevel in
  let id := fresh (dom (users w)) in
  let details := claim_details claims (randomBytes32hex (seed w)) in
  let hashed :=
    hash bcrypt (randomBytes32hex (seed w))
      (genSalt bcrypt BCRYPT_ROUNDS BCRYPT_MINOR_VERSION (N.succ (seed w))) in
  next_call_fails w = None ->
  (forall user, store_findOne (Q_thirdPartyIdentifiers (sub claims)) (users w) = Some user ->
                truthy (hashedPassword (fields user)) = false) ->
  (forall f, next_call_fails (next_fault w) = Some f ->
     delivered (run h p w).1 = [Err (CollaboratorError f)]
     /\ users (run h p w).2 = users w
     /\ count_calls (@writes) (run h p w).1 = 1%nat)
  /\ (next_call_fails (next_fault w) = None ->
      (forall f, next_call_fails (next_fault (next_fault w)) = Some f ->
         delivered (run h p w).1 = [Err (CollaboratorError f)]
         /\ users (run h p w).2 = <[id := new_account details hashed]> (users w)
         /\ count_calls (@writes) (run h p w).1 = 2%nat)
      /\ (next_call_fails (next_fault (next_fault w)) = None ->
          delivered (run h p w).1
          = [Ok {| _id := id;
                   fields := linked_account claims hashed (clock w);
                   modified := [] |}]
          /\ users (run h p w).2
             = <[id := linked_account claims hashed (clock w)]> (users w)
          /\ count_calls (@writes) (run h p w).1 = 2%nat)).
Proof.
  intros p id details hashed Hf Hfind.
  destruct (doPassportLogin_create h w claims Hf Hfind) as (found & t & E & Et).
  subst p. rewrite E. clear E. subst t. split.
  - intros f Hf'. rewrite (run_Call_fails _ _ _ _ f) by done. done.
  - intros Hf'. rewrite run_Call_answers by done. cbn [handle fst snd].
    unfold register_new_user. cbn [fst snd assign fields emails new_account apply_assign].
    rewrite run_NewDate. split.
    + intros f Hf''. rewrite (run_Call_fails _ _ _ _ f) by done. done.
    + intros Hf''. rewrite run_Call_answers by done. cbn [handle].
      unfold store_save. cbn [_id users with_users next_seed next_fault].
      rewrite lookup_insert_eq.
      split; [reflexivity|]. split; [|reflexivity].
      unfold toplevel. cbn [fst snd run users with_users].
      rewrite insert_insert_eq. reflexivity.
Qed.

Lemma handle_faults {A} (a : Action A) w : faults (handle a w).2 = faults w.
Proof.
  destruct a; simpl; try done.
  - by destruct (store_updateOne _ _ _).
  - by destruct (store_updateOne _ _ _).
  - by destruct (store_save _ _).
Qed.

Lemma run_faults_nil {R} (p : Prog R) h w :
  faults w = [] -> faults (run h p w).2 = [].
Proof.
  revert w. induction p as [|A a k IH|k IH|k IH|r k IH|pw k IH|]; intros w Hw; simpl; auto.
  - pose proof (handle_faults a (next_fault w)) as Hh.
    unfold perform. rewrite Hw. destruct (handle a (next_fault w)) as [r w1].
    simpl in Hh. rewrite Hw in Hh. specialize (IH r w1 Hh).
    by destruct (run h (k r) w1).
  - specialize (IH w Hw). by destruct (run h k w).
  - specialize (IH w Hw). by destruct (run h k w).
Qed.

Lemma store_findOne_unique q m id d :
  m !! id = Some d ->
  matches q id d = true ->
  (forall id' d', m !! id' = Some d' -> matches q id' d' = true -> id' = id) ->
  store_findOne q m = Some {| _id := id; fields := d; modified := [] |}.
Proof.
  intros Hd Hq Huniq. destruct (store_findOne q m) as [[id' d' mods]|] eqn:E.
  - destruct (store_findOne_Some _ _ _ E) as (H1 & H2 & H3). simpl in *.
    assert (id' = id) as -> by eauto. rewrite Hd in H1. by injection H1 as ->; subst.
  - pose proof (store_findOne_None _ _ E id d Hd). congruence.
Qed.

(** The update branch of [createIfNotExistAndLogin]. *)
Lemma doPassportLogin_update h w claims user :
  next_call_fails w = None ->
  next_call_fails (next_fault w) = None ->
  store_findOne (Q_thirdPartyIdentifiers (sub claims)) (users w) = Some user ->
  truthy (hashedPassword (fields user)) = true ->
  exists saved,
    run h (doPassportLogin claims toplevel) w
    = ([EvCall (User_findOne (Q_thirdPartyIdentifiers (sub claims))) (Ok (Some user));
        EvCall (Document_save saved)
          (Ok {| _id := _id user; fields := profile_updated claims (fields user);
                 modified := [] |});
        EvDeliver (Ok {| _id := _id user; fields := profile_updated claims (fields user);
                         modified := [] |})],
       with_users (next_fault (next_fault w))
         (<[_id user := profile_updated claims (fields user)]> (users w)))
    /\ modified saved = [set_email (claims_email claims);
                         set_first_name (given_name claims);
                         set_last_name (family_name claims)].
Proof.
  intros Hf Hf' Hfind Htruthy.
  destruct (store_findOne_Some _ _ _ Hfind) as (Hlook & Hmod & _).
  unfold doPassportLogin. cbv zeta.
  rewrite run_Call_answers by done. cbn [handle fst snd].
  rewrite next_fault_users, Hfind.
  unfold createIfNotExistAndLogin. cbv zeta. rewrite Htruthy. cbn [negb].
  rewrite run_Call_answers by done. cbn [handle].
  unfold store_save. cbn [_id assign users next_fault]. rewrite Hlook.
  eexists. split.
  - cbn [fst snd]. unfold toplevel. rewrite run_Deliver_Done.
    cbn [fst snd modified assign]. rewrite Hmod. reflexivity.
  - cbn [modified assign]. rewrite Hmod. reflexivity.
Qed.

Lemma profile_updated_linked claims hashed now :
  profile_updated claims (linked_account claims hashed now)
  = linked_account claims hashed now.
Proof. reflexivity. Qed.

(** C7 (as amended). When the account found for the subject has a
    [hashedPassword], [linkOrCreate] creates no account: its one write
    overwrites the email, given name and family name of that account.  For
    a subject that no account carries, two calls with the same claims leave
    exactly one account carrying the subject: the first creates it, the
    second finds it and rewrites the three profile fields, leaving the
    collection as the first call left it. *)
Theorem link_twice_first_seen h claims :
  let p := doPassportLogin claims toplevel in
  let query := Q_thirdPartyIdentifiers (sub claims) in
  (forall w user,
     next_call_fails w = None ->
     next_call_fails (next_fault w) = None ->
     store_findOne query (users w) = Some user ->
     truthy (hashedPassword (fields user)) = true ->
     users (run h p w).2 = <[_id user := profile_updated claims (fields user)]> (users w)
     /\ dom (users (run h p w).2) = dom (users w)
     /\ count_calls (@writes) (run h p w).1 = 1%nat)
  /\ (forall w,
        faults w = [] ->
        store_findOne query (users w) = None ->
        (forall pw s,
            hash bcrypt pw (genSalt bcrypt BCRYPT_ROUNDS BCRYPT_MINOR_VERSION s) <> []) ->
        let w1 := (run h p w).2 in
        let w2 := (run h p w1).2 in
        size (users w1) = S (size (users w))
        /\ users w2 = users w1
        /\ exists id d,
             users w2 !! id = Some d
             /\ sub claims ∈ thirdPartyIdentifiers d
             /\ email d = Some (claims_email claims)
             /\ first_name d = Some (given_name claims)
             /\ last_name d = Some (family_name claims)
             /\ forall id' d', users w2 !! id' = Some d' ->
                               sub claims ∈ thirdPartyIdentifiers d' -> id' = id).
Proof.
  intros p query. split.
  - intros w user Hf Hf' Hfind Htruthy.
    destruct (doPassportLogin_update h w claims user Hf Hf' Hfind Htruthy)
      as (saved & E & _).
    subst p. rewrite E. cbn [fst snd users with_users].
    destruct (store_findOne_Some _ _ _ Hfind) as (Hlook & _ & _).
    split; [done|]. split; [|reflexivity].
    rewrite dom_insert_L. apply elem_of_dom_2 in Hlook. set_solver.
  - intros w Hnil Hnone Hhash w1 w2.
    assert (Hf : next_call_fails w = None) by (by apply faults_nil_answers).
    assert (Hfn : faults (next_fault w) = []) by (by apply faults_nil_next).
    assert (Hf' : next_call_fails (next_fault w) = None) by (by apply faults_nil_answers).
    assert (Hf'' : next_call_fails (next_fault (next_fault w)) = None).
    { by apply faults_nil_answers, faults_nil_next. }
    assert (Hw1 := doPassportLogin_created h w claims Hf).
    cbv zeta in Hw1. specialize (Hw1 ltac:(intros user Hu; subst query; congruence) Hf' Hf'').
    set (id := fresh (dom (users w))) in *.
    set (hashed := hash bcrypt (randomBytes32hex (seed w))
                     (genSalt bcrypt BCRYPT_ROUNDS BCRYPT_MINOR_VERSION (N.succ (seed w))))
      in *.
    set (d := linked_account claims hashed (clock w)) in *.
    assert (Hfresh : users w !! id = None).
    { apply not_elem_of_dom. apply is_fresh. }
    assert (Husers1 : users w1 = <[id := d]> (users w)) by exact Hw1.
    assert (Hlook1 : users w1 !! id = Some d).
    { rewrite Husers1. apply lookup_insert_eq. }
    assert (Huniq : forall id' d', users w1 !! id' = Some d' ->
                                   sub claims ∈ thirdPartyIdentifiers d' -> id' = id).
    { intros id' d' Hd' Hin. destruct (decide (id' = id)) as [|Hne]; [done|].
      rewrite Husers1, lookup_insert_ne in Hd' by done.
      pose proof (store_findOne_None _ _ Hnone id' d' Hd') as Hq.
      simpl in Hq. apply bool_decide_eq_false in Hq. done. }
    assert (Hfind1 : store_findOne query (users w1)
                     = Some {| _id := id; fields := d; modified := [] |}).
    { apply store_findOne_unique; [done| |].
      - simpl. apply bool_decide_eq_true. subst d. simpl. set_solver.
      - intros id' d' Hd' Hq. simpl in Hq. apply bool_decide_eq_true in Hq. eauto. }
    assert (Hnil1 : faults w1 = []) by (by apply run_faults_nil).
    destruct (doPassportLogin_update h w1 claims _ (faults_nil_answers _ Hnil1)
                (faults_nil_answers _ (faults_nil_next _ Hnil1)) Hfind1) as (saved & E2 & _).
    { subst d. simpl. specialize (Hhash (randomBytes32hex (seed w)) (N.succ (seed w))).
      fold hashed in Hhash. by destruct hashed. }
    assert (Hw2 : users w2 = users w1).
    { subst w2. fold p in E2. rewrite E2. cbn [snd users with_users fields _id].
      subst d. rewrite profile_updated_linked. by apply insert_id. }
    split; [|split; [exact Hw2|]].
    + rewrite Husers1. by apply map_size_insert_None.
    + exists id, d. rewrite Hw2. subst d. simpl. repeat split; try done.
      set_solver.
Qed.

(** * Further properties *)

(** ** The password policy *)

Lemma validatePassword_None_inv p email :
  validatePassword (Some p) email = None ->
  (Z.of_nat (length p) <? minimum_length) = false
  /\ ~ maximum_length < Z.of_nat (length p)
  /\ (restricts_characters -> _passwordCharactersAreValid p = true)
  /\ (forall c r, email = Some (c :: r) ->
        indexOf p (c :: r) = -1 /\ indexOf p (split_head at_sign (c :: r)) = -1).
Proof.
  rewrite validatePassword_Some.
  destruct (Z.of_nat (length p) <? minimum_length) eqn:Hmin; [done|].
  match goal with |- context [if ?b then _ else _] => destruct b eqn:Hmax end; [done|].
  match goal with |- context [if ?b then _ else _] => destruct b eqn:Hch end; [done|].
  intros H. split; [done|]. split.
  { intros Hlt. apply maximum_length_spec in Hlt. congruence. }
  split.
  { intros Hr. apply restricts_characters_spec in Hr. rewrite Hr in Hch. simpl in Hch.
    by apply negb_false_iff in Hch. }
  intros c r ->.
  match type of H with (if ?b then _ else _) = _ => destruct b eqn:E end; [done|].
  apply orb_false_iff in E as [E1 E2].
  apply negb_false_iff, Z.eqb_eq in E1. apply negb_false_iff, Z.eqb_eq in E2. done.
Qed.

Lemma maximum_length_le_72 : maximum_length <= 72.
Proof. unfold maximum_length. lia. Qed.

(** X1. [validatePassword] accepts (returns [null]) exactly the passwords
    that are present, whose length lies between the minimum and the
    effective maximum, whose characters are all allowed when the character
    restriction is active, and in which neither a non-empty email nor its
    part before the at sign occurs; an accepted password never has more than
    72 code units. *)
Theorem validatePassword_accepts_iff (password email : option jsstring) :
  (validatePassword password email = None
   <-> exists p,
         password = Some p
         /\ minimum_length <= Z.of_nat (length p) <= maximum_length
         /\ (restricts_characters -> forall c, c ∈ p -> c ∈ allowed_characters)
         /\ (forall e, email = Some e -> e <> [] ->
               ~ Substring e p /\ ~ Substring (split_head at_sign e) p))
  /\ (forall p, password = Some p -> validatePassword password email = None ->
                Z.of_nat (length p) <= 72).
Proof.
  assert (forall p, validatePassword (Some p) email = None ->
            minimum_length <= Z.of_nat (length p) <= maximum_length
            /\ (restricts_characters -> forall c, c ∈ p -> c ∈ allowed_characters)
            /\ (forall e, email = Some e -> e <> [] ->
                  ~ Substring e p /\ ~ Substring (split_head at_sign e) p)) as Hinv.
  { intros p H. destruct (validatePassword_None_inv p email H) as (Hmin & Hmax & Hch & Hem).
    apply Z.ltb_ge in Hmin. split; [lia|]. split.
    - intros Hr. by apply passwordCharactersAreValid_spec, Hch.
    - intros [|c r] -> Hne; [done|]. destruct (Hem c r eq_refl) as [E1 E2].
      by rewrite <- !indexOf_spec. }
  split.
  - split.
    + destruct password as [p|]; [|done]. intros H. exists p. split; [done|]. by apply Hinv.
    + intros (p & -> & [Hmin Hmax] & Hch & Hem). rewrite validatePassword_Some.
      apply Z.ltb_ge in Hmin. rewrite Hmin.
      match goal with |- context [if ?b then _ else _] => destruct b eqn:E end.
      { apply maximum_length_spec in E. lia. }
      match goal with |- context [if ?b then _ else _] => destruct b eqn:E' end.
      { apply andb_true_iff in E' as [Hr Hc]. apply negb_true_iff in Hr, Hc.
        apply restricts_characters_spec in Hr.
        apply passwordCharactersAreValid_false in Hc as (c & Hc1 & Hc2).
        exfalso. by apply Hc2, Hch. }
      destruct email as [[|c r]|]; try done.
      destruct (Hem (c :: r) eq_refl) as [H1 H2]; [done|].
      apply indexOf_spec in H1, H2. by rewrite H1, H2.
  - intros p -> H. destruct (Hinv p H) as ([_ Hmax] & _).
    pose proof maximum_length_le_72. lia.
Qed.

(** X2. Whatever the settings, a password of more than 72 code units is
    rejected by one of the two length checks. *)
Theorem validatePassword_rejects_over_72 (p : jsstring) (email : option jsstring) :
  72 < Z.of_nat (length p) ->
  validatePassword (Some p) email = Some (InvalidPasswordError too_short)
  \/ validatePassword (Some p) email = Some (InvalidPasswordError too_long).
Proof.
  intros Hlen. rewrite validatePassword_Some.
  destruct (Z.of_nat (length p) <? minimum_length); [by left|]. right.
  match goal with |- context [if ?b then _ else _] => destruct b eqn:E end; [done|].
  exfalso. assert (maximum_length < Z.of_nat (length p)) as Hlt.
  { pose proof maximum_length_le_72. lia. }
  apply maximum_length_spec in Hlt. congruence.
Qed.

Lemma split_head_at_sign r : split_head at_sign (at_sign :: r) = [].
Proof. reflexivity. Qed.

Lemma indexOf_empty s : indexOf s [] = 0.
Proof. unfold indexOf. by destruct s. Qed.

(** X3. For an email that starts with the at sign the part before it is the
    empty string, which every string contains: no password is accepted, and
    a password that would be accepted without an email gets
    [contains_email]. *)
Theorem validatePassword_email_without_local_part (p r : jsstring) :
  (exists code,
     validatePassword (Some p) (Some (at_sign :: r)) = Some (InvalidPasswordError code))
  /\ (validatePassword (Some p) None = None ->
      validatePassword (Some p) (Some (at_sign :: r))
      = Some (InvalidPasswordError contains_email)).
Proof.
  rewrite !validatePassword_Some.
  destruct (Z.of_nat (length p) <? minimum_length); [split; [eauto|done]|].
  match goal with |- context [if ?b then _ else _] => destruct b end;
    [split; [eauto|done]|].
  match goal with |- context [if ?b then _ else _] => destruct b end;
    [split; [eauto|done]|].
  rewrite split_head_at_sign, indexOf_empty.
  change (negb (0 =? -1)) with true. rewrite orb_true_r.
  split; [eexists; reflexivity | intros _; reflexivity].
Qed.

Lemma chars_all_in_app dg lt up sy p q :
  chars_all_in dg lt up sy (p ++ q)
  = chars_all_in dg lt up sy p && chars_all_in dg lt up sy q.
Proof.
  induction p as [|c p IH]; [done|]. simpl.
  by destruct ((indexOf dg [c] =? -1) && (indexOf lt [c] =? -1)
               && (indexOf up [c] =? -1) && (indexOf sy [c] =? -1)).
Qed.

(** X4. [_passwordCharactersAreValid] holds of a password exactly when each
    of its code units occurs in one of the four configured class strings;
    it holds of the empty password, and of a concatenation exactly when it
    holds of both parts. *)
Theorem passwordCharactersAreValid_membership (p q : jsstring) :
  (_passwordCharactersAreValid p = true
   <-> forall c, c ∈ p -> c ∈ allowed_characters)
  /\ _passwordCharactersAreValid [] = true
  /\ _passwordCharactersAreValid (p ++ q)
     = _passwordCharactersAreValid p && _passwordCharactersAreValid q.
Proof.
  split; [apply passwordCharactersAreValid_spec|]. split; [reflexivity|].
  unfold _passwordCharactersAreValid. cbv zeta. apply chars_all_in_app.
Qed.

(** ** Frames of the login and password-set paths *)

Lemma changes_only_refl id erase m : changes_only id erase m m.
Proof.
  split; [done|]. split; [done|]. intros d d' H1 H2. rewrite H1 in H2. by injection H2 as ->.
Qed.

Lemma changes_only_trans id erase m1 m2 m3 :
  changes_only id erase m1 m2 -> changes_only id erase m2 m3 ->
  changes_only id erase m1 m3.
Proof.
  intros (Hd1 & Ho1 & He1) (Hd2 & Ho2 & He2). split; [congruence|]. split.
  - intros id' Hne. rewrite Ho2, Ho1 by done. done.
  - intros d d'' H1 H3.
    assert (is_Some (m2 !! id)) as [d' H2].
    { apply elem_of_dom. rewrite Hd1. apply elem_of_dom. eauto. }
    rewrite (He2 d' d'' H2 H3). by apply He1.
Qed.

Lemma store_updateOne_changes_only f u m erase :
  (forall d, erase (apply_update u d) = erase d) ->
  changes_only (filter_id f) erase m (store_updateOne f u m).2.
Proof.
  intros He. unfold store_updateOne.
  destruct (m !! filter_id f) as [d|] eqn:E; [|apply changes_only_refl].
  destruct (match filter_loginEpoch f with Some n => _ | None => true end);
    [|apply changes_only_refl].
  simpl. split; [|split].
  - rewrite dom_insert_L. apply elem_of_dom_2 in E.
    apply set_eq. intros x. rewrite elem_of_union, elem_of_singleton.
    split; [intros [->|]; done | auto].
  - intros id' Hne. by rewrite lookup_insert_ne.
  - intros d0 d' H0 H'. rewrite lookup_insert_eq in H'. injection H' as <-.
    rewrite E in H0. injection H0 as <-. apply He.
Qed.

Lemma perform_changes_only id erase {A} (a : Action A) w :
  call_changes_only id erase A a ->
  changes_only id erase (users w) (users (perform a w).2).
Proof.
  intros Ha. rewrite perform_eq.
  destruct (next_call_fails w); [apply changes_only_refl|].
  destruct a; simpl in Ha |- *; try done; try apply changes_only_refl.
  - destruct Ha as [<- He].
    pose proof (store_updateOne_changes_only filter update (users w) erase He) as H.
    by destruct (store_updateOne filter update (users w)).
  - destruct Ha as [<- He].
    pose proof (store_updateOne_changes_only filter update (users w) erase He) as H.
    by destruct (store_updateOne filter update (users w)).
Qed.

Lemma run_changes_only {R} id erase (p : Prog R) h w :
  Issues (call_changes_only id erase) p ->
  changes_only id erase (users w) (users (run h p w).2).
Proof.
  apply (run_Issues (call_changes_only id erase)).
  - apply changes_only_refl.
  - apply changes_only_trans.
  - intros A a w'. apply perform_changes_only.
Qed.

Lemma setUserPasswordInV2_changes_only {R} user password (callback : Res bool -> Prog R) :
  (forall r, Issues (call_changes_only (_id user) without_password) (callback r)) ->
  Issues (call_changes_only (_id user) without_password)
    (setUserPasswordInV2 (Some user) password callback).
Proof.
  intros Hcb. unfold setUserPasswordInV2.
  destruct (negb _); [done|].
  destruct (validatePassword _ _); [done|].
  destruct password as [password|]; [|done].
  unfold hashPassword. constructor; [exact I|]. intros [e|salt]; [done|].
  constructor; [exact I|]. intros [e|hashed]; [done|].
  constructor; [by split|]. intros [e|result]; [done|].
  apply Issues_seq; [|repeat constructor].
  unfold _checkWriteResult. by destruct (_ =? _).
Qed.

Lemma without_login_state_password id A (a : Action A) :
  call_changes_only id without_password A a ->
  call_changes_only id without_login_state A a.
Proof.
  destruct a; simpl; try done.
  - intros [-> He]. split; [done|]. intros d. specialize (He d).
    unfold without_login_state, without_password in *. congruence.
  - intros [-> He]. split; [done|]. intros d. specialize (He d).
    unfold without_login_state, without_password in *. congruence.
Qed.

Lemma authenticate_updated_changes_only user hp password m r :
  Issues (call_changes_only (_id user) without_login_state)
    (authenticate_updated user hp password m toplevel r).
Proof.
  unfold authenticate_updated, toplevel.
  destruct r as [e|result]; [repeat constructor|].
  destruct (negb _); [repeat constructor|].
  destruct (negb m); [repeat constructor|].
  unfold checkRounds. destruct (disableBcryptRoundsUpgrades _); [repeat constructor|].
  destruct (_ <? _); [|repeat constructor].
  eapply Issues_impl; [apply without_login_state_password|].
  apply setUserPasswordInV2_changes_only. intros [e|b]; repeat constructor.
Qed.

Lemma authenticate_compared_changes_only user hp password r :
  Issues (call_changes_only (_id user) without_login_state)
    (authenticate_compared user hp password toplevel r).
Proof.
  destruct r as [e|m]; [repeat constructor|].
  unfold authenticate_compared. cbv zeta.
  destruct (negb m).
  - constructor. intros now. constructor; [by split|].
    intros r. apply authenticate_updated_changes_only.
  - constructor; [by split|]. intros r. apply authenticate_updated_changes_only.
Qed.

(** X5. Whatever the store and bcrypt answer, [authenticate] adds and removes
    no account, leaves every account other than the one its query found
    exactly as it was, and changes in that one nothing but [hashedPassword],
    [password], [loginEpoch] and [lastFailedLogin]: profile fields, email
    entries, the admin flag and the linked identifiers stay. *)
Theorem authenticate_changes_only_login_state h w query password :
  dom (users (run h (authenticate query password toplevel) w).2) = dom (users w)
  /\ (forall id d,
        users w !! id = Some d ->
        exists d',
          users (run h (authenticate query password toplevel) w).2 !! id = Some d'
          /\ without_login_state d' = without_login_state d)
  /\ (forall id,
        (forall user, store_findOne query (users w) = Some user -> _id user <> id) ->
        users (run h (authenticate query password toplevel) w).2 !! id = users w !! id).
Proof.
  assert (exists id,
            changes_only id without_login_state (users w)
              (users (run h (authenticate query password toplevel) w).2)
            /\ ((exists user, store_findOne query (users w) = Some user /\ _id user = id)
                \/ users (run h (authenticate query password toplevel) w).2 = users w))
    as (id0 & (Hdom & Hother & Hsame) & Hid).
  { unfold authenticate. cbn [run]. rewrite perform_eq.
    destruct (next_call_fails w).
    { exists 0%N. split; [apply changes_only_refl | by right]. }
    cbn [handle]. rewrite next_fault_users.
    destruct (store_findOne query (users w)) as [user|] eqn:Hfind.
    2:{ exists 0%N. split; [apply changes_only_refl | by right]. }
    exists (_id user). split; [|left; by exists user].
    cbn [authenticate_found].
    destruct (hashedPassword (fields user)) as [[|c hp]|];
      try (cbn; apply changes_only_refl).
    match goal with
    | |- context [run h ?p ?w0] =>
        pose proof (run_changes_only (_id user) without_login_state p h w0) as H;
        destruct (run h p w0) as [t w']
    end.
    apply H. constructor; [exact I|]. intros r.
    apply authenticate_compared_changes_only. }
  split; [exact Hdom|]. split.
  - intros id d Hd.
    assert (is_Some (users (run h (authenticate query password toplevel) w).2 !! id))
      as [d' Hd'].
    { apply elem_of_dom. rewrite Hdom. apply elem_of_dom. eauto. }
    exists d'. split; [done|].
    destruct (decide (id = id0)) as [->|Hne]; [by apply Hsame|].
    rewrite Hother in Hd' by done. congruence.
  - intros id Hnot. destruct Hid as [(user & Hfind & <-)|Heq]; [|by rewrite Heq].
    apply Hother. intros ->. by apply (Hnot user).
Qed.

(** X6. Whatever the store and bcrypt answer, and whatever it reports,
    [setUserPassword] adds and removes no account, leaves every account
    other than the one with the user's [_id] exactly as it was, and changes
    in that one nothing but [hashedPassword] and [password]; the login epoch
    and the failure time stay. *)
Theorem setUserPassword_changes_only_password h w user password :
  dom (users (run h (setUserPassword user password toplevel) w).2) = dom (users w)
  /\ (forall id d,
        users w !! id = Some d ->
        exists d',
          users (run h (setUserPassword user password toplevel) w).2 !! id = Some d'
          /\ without_password d' = without_password d)
  /\ (forall id,
        (forall u, user = Some u -> _id u <> id) ->
        users (run h (setUserPassword user password toplevel) w).2 !! id = users w !! id).
Proof.
  destruct user as [user|].
  2:{ split; [done|]. split; [|done]. intros id d Hd. by exists d. }
  destruct (run_changes_only (_id user) without_password
              (setUserPassword (Some user) password toplevel : Prog bool) h w)
    as (Hdom & Hother & Hsame).
  { apply setUserPasswordInV2_changes_only. intros r. repeat constructor. }
  split; [exact Hdom|]. split.
  - intros id d Hd.
    assert (is_Some (users (run h (setUserPassword (Some user) password toplevel) w).2
                     !! id)) as [d' Hd'].
    { apply elem_of_dom. rewrite Hdom. apply elem_of_dom. eauto. }
    exists d'. split; [done|].
    destruct (decide (id = _id user)) as [->|Hne]; [by apply Hsame|].
    rewrite Hother in Hd' by done. congruence.
  - intros id Hnot. apply Hother. intros ->. by apply (Hnot user).
Qed.

(** ** Runs of [authenticate] *)

(** X7. A failure of the store or of bcrypt before the conditioned write
    lands is handed to the caller as it is, and nothing is written: a
    failing lookup ends the call after the read; a failing comparison ends
    it before any update is issued, so the epoch is not advanced; a failing
    update leaves the collection as it was and is reported as the store's
    error, not as a conflict. *)
Theorem authenticate_collaborator_failure h w query password f :
  (next_call_fails w = Some f ->
     run h (authenticate query password toplevel) w
     = ([EvCall (User_findOne query) (Err (CollaboratorError f));
         EvDeliver (Err (CollaboratorError f))],
        next_fault w))
  /\ (forall user c hp,
        next_call_fails w = None ->
        store_findOne query (users w) = Some user ->
        hashedPassword (fields user) = Some (c :: hp) ->
        (next_call_fails (next_fault w) = Some f ->
           run h (authenticate query password toplevel) w
           = ([EvCall (User_findOne query) (Ok (Some user));
               EvCall (bcrypt_compare password (c :: hp)) (Err (CollaboratorError f));
               EvDeliver (Err (CollaboratorError f))],
              next_fault (next_fault w)))
        /\ (next_call_fails (next_fault w) = None ->
            next_call_fails (next_fault (next_fault w)) = Some f ->
            delivered (run h (authenticate query password toplevel) w).1
            = [Err (CollaboratorError f)]
            /\ users (run h (authenticate query password toplevel) w).2 = users w
            /\ count_calls (@writes) (run h (authenticate query password toplevel) w).1
               = 1%nat)).
Proof.
  split.
  - intros Hf. unfold authenticate. by rewrite (run_Call_fails _ _ _ _ f).
  - intros user c hp Hf Hfind Hhash. split.
    + intros Hf'. unfold authenticate. rewrite run_Call_answers by done.
      cbn [handle fst snd]. rewrite next_fault_users, Hfind.
      cbn [authenticate_found]. rewrite Hhash.
      by rewrite (run_Call_fails _ _ _ _ f).
    + intros Hf' Hf''.
      rewrite (authenticate_reaches_write h w query password user c hp) by done.
      unfold authenticate_compared. cbv zeta.
      destruct (negb _); [rewrite run_NewDate|];
        rewrite (run_Call_fails _ _ _ _ f) by done; done.
Qed.

(** After the conditioned write of a matching login has landed, when no
    rotation is due. *)
Lemma authenticate_updated_no_rotation h w user hp password :
  disableBcryptRoundsUpgrades (security Settings) = true
  \/ BCRYPT_ROUNDS <= getRounds bcrypt hp ->
  run h (authenticate_updated user hp password true toplevel
           (Ok {| matched := 1; modified_n := 1 |})) w
  = ([EvDeliver (Ok (Some user)); EvBackground password (h password)], w).
Proof.
  intros Hcase. unfold authenticate_updated, checkRounds.
  cbn [nModified modified_n Z.eqb Pos.eqb negb].
  destruct (disableBcryptRoundsUpgrades (security Settings)); [reflexivity|].
  destruct Hcase as [|Hge]; [done|].
  apply Z.ltb_ge in Hge. rewrite Hge. reflexivity.
Qed.

(** The same when a rotation is due but [setUserPasswordInV2] rejects the
    user or the password. *)
Lemma authenticate_updated_rotation_rejected h w user hp password e :
  disableBcryptRoundsUpgrades (security Settings) = false ->
  getRounds bcrypt hp < BCRYPT_ROUNDS ->
  (truthy (email (fields user)) = false /\ e = InvalidUserObject)
  \/ (truthy (email (fields user)) = true
      /\ validatePassword (Some password) (email (fields user)) = Some e) ->
  run h (authenticate_updated user hp password true toplevel
           (Ok {| matched := 1; modified_n := 1 |})) w
  = ([EvDeliver (Err e)], w).
Proof.
  intros Hen Hlow Hcase. unfold authenticate_updated, checkRounds.
  cbn [nModified modified_n Z.eqb Pos.eqb negb]. rewrite Hen.
  apply Z.ltb_lt in Hlow. rewrite Hlow.
  unfold setUserPassword, setUserPasswordInV2.
  destruct Hcase as [[Ht ->]|[Ht Hv]]; rewrite Ht; cbn [negb]; [reflexivity|].
  rewrite Hv. reflexivity.
Qed.

Lemma apply_update_login_match d now :
  apply_update (login_update now true) d
  = {| email := email d; first_name := first_name d; last_name := last_name d;
       hashedPassword := hashedPassword d; password := password d;
       loginEpoch := loginEpoch d + 1; lastFailedLogin := lastFailedLogin d;
       thirdPartyIdentifiers := thirdPartyIdentifiers d; admin := admin d;
       emails := emails d |}.
Proof. reflexivity. Qed.

(** The run of a login with the right password up to the landed write. *)
Lemma authenticate_match_lands h w query password user c hp :
  next_call_fails w = None ->
  next_call_fails (next_fault w) = None ->
  next_call_fails (next_fault (next_fault w)) = None ->
  store_findOne query (users w) = Some user ->
  hashedPassword (fields user) = Some (c :: hp) ->
  compare bcrypt password (c :: hp) = true ->
  run h (authenticate query password toplevel) w
  = (EvCall (User_findOne query) (Ok (Some user))
       :: EvCall (bcrypt_compare password (c :: hp)) (Ok true)
       :: EvCall (User_updateOne
                    {| filter_id := _id user;
                       filter_loginEpoch := Some (loginEpoch (fields user)) |}
                    (login_update (clock w) true))
            (Ok {| matched := 1; modified_n := 1 |})
       :: (run h (authenticate_updated user (c :: hp) password true toplevel
                    (Ok {| matched := 1; modified_n := 1 |}))
             (with_users (next_fault (next_fault (next_fault w)))
                (<[_id user := apply_update (login_update (clock w) true) (fields user)]>
                   (users w)))).1,
     (run h (authenticate_updated user (c :: hp) password true toplevel
               (Ok {| matched := 1; modified_n := 1 |}))
        (with_users (next_fault (next_fault (next_fault w)))
           (<[_id user := apply_update (login_update (clock w) true) (fields user)]>
              (users w)))).2).
Proof.
  intros Hf Hf' Hf'' Hfind Hhash Hcmp.
  rewrite (authenticate_reaches_write h w query password user c hp) by done.
  rewrite Hcmp.
  destruct (store_findOne_Some _ _ _ Hfind) as (Hd & _ & _).
  rewrite (authenticate_compared_lands h _ user (c :: hp) password true (fields user))
    by done.
  reflexivity.
Qed.

(** X8. A login with the right password whose stored hash needs no rotation
    (upgrades are disabled, or its cost is at least [BCRYPT_ROUNDS]) makes
    exactly three calls, the read, the comparison and the conditioned
    increment, hands the caller the user as fetched, and then schedules one
    background check; the stored account differs from the fetched one in
    [loginEpoch] only, the hash is not rewritten. *)
Theorem authenticate_without_rotation h w query pw user c hp :
  next_call_fails w = None ->
  next_call_fails (next_fault w) = None ->
  next_call_fails (next_fault (next_fault w)) = None ->
  store_findOne query (users w) = Some user ->
  hashedPassword (fields user) = Some (c :: hp) ->
  compare bcrypt pw (c :: hp) = true ->
  disableBcryptRoundsUpgrades (security Settings) = true
  \/ BCRYPT_ROUNDS <= getRounds bcrypt (c :: hp) ->
  (run h (authenticate query pw toplevel) w).1
  = [EvCall (User_findOne query) (Ok (Some user));
     EvCall (bcrypt_compare pw (c :: hp)) (Ok true);
     EvCall (User_updateOne
               {| filter_id := _id user;
                  filter_loginEpoch := Some (loginEpoch (fields user)) |}
               {| upd_inc_loginEpoch := Some 1; upd_set := [];
                  upd_unset_password := false |})
       (Ok {| matched := 1; modified_n := 1 |});
     EvDeliver (Ok (Some user));
     EvBackground pw (h pw)]
  /\ users (run h (authenticate query pw toplevel) w).2
     = <[_id user :=
           {| email := email (fields user); first_name := first_name (fields user);
              last_name := last_name (fields user);
              hashedPassword := Some (c :: hp); password := password (fields user);
              loginEpoch := loginEpoch (fields user) + 1;
              lastFailedLogin := lastFailedLogin (fields user);
              thirdPartyIdentifiers := thirdPartyIdentifiers (fields user);
              admin := admin (fields user); emails := emails (fields user) |}]>
         (users w).
Proof.
  intros Hf Hf' Hf'' Hfind Hhash Hcmp Hcase.
  rewrite (authenticate_match_lands h w query pw user c hp) by done.
  rewrite authenticate_updated_no_rotation by done.
  cbn [fst snd users with_users]. split; [reflexivity|].
  rewrite apply_update_login_match, Hhash. reflexivity.
Qed.

(** X9. A login with the right password whose hash is due for rotation goes
    through [setUserPasswordInV2]: when the fetched user has no email, or
    the password it logged in with does not pass [validatePassword], the
    caller gets that error instead of the user, although the conditioned
    write has landed: the epoch is advanced, the hash is not rewritten, and
    no background check is scheduled. *)
Theorem authenticate_rotation_rejected h w query password user c hp e :
  next_call_fails w = None ->
  next_call_fails (next_fault w) = None ->
  next_call_fails (next_fault (next_fault w)) = None ->
  store_findOne query (users w) = Some user ->
  hashedPassword (fields user) = Some (c :: hp) ->
  compare bcrypt password (c :: hp) = true ->
  disableBcryptRoundsUpgrades (security Settings) = false ->
  getRounds bcrypt (c :: hp) < BCRYPT_ROUNDS ->
  (truthy (email (fields user)) = false /\ e = InvalidUserObject)
  \/ (truthy (email (fields user)) = true
      /\ validatePassword (Some password) (email (fields user)) = Some e) ->
  delivered (run h (authenticate query password toplevel) w).1 = [Err e]
  /\ background_checks (run h (authenticate query password toplevel) w).1 = []
  /\ count_calls (@writes) (run h (authenticate query password toplevel) w).1 = 1%nat
  /\ exists d,
       users (run h (authenticate query password toplevel) w).2 !! _id user = Some d
       /\ loginEpoch d = loginEpoch (fields user) + 1
       /\ hashedPassword d = Some (c :: hp).
Proof.
  intros Hf Hf' Hf'' Hfind Hhash Hcmp Hen Hlow Hcase.
  rewrite (authenticate_match_lands h w query password user c hp) by done.
  rewrite (authenticate_updated_rotation_rejected _ _ _ _ _ e) by done.
  cbn [fst snd users with_users]. split; [reflexivity|]. split; [reflexivity|].
  split; [reflexivity|].
  eexists. split; [apply lookup_insert_eq|].
  rewrite apply_update_login_match. cbn [loginEpoch hashedPassword]. by rewrite Hhash.
Qed.

(** ** Runs of [setUserPassword] *)

(** The run of [setUserPasswordInV2] on a user with an email and a password
    that passes validation, when bcrypt and the store answer. *)
Lemma setUserPasswordInV2_answers {R} h w user pw (callback : Res bool -> Prog R) :
  truthy (email (fields user)) = true ->
  validatePassword (Some pw) (email (fields user)) = None ->
  next_call_fails w = None ->
  next_call_fails (next_fault w) = None ->
  next_call_fails (next_fault (next_fault w)) = None ->
  let salt := genSalt bcrypt BCRYPT_ROUNDS BCRYPT_MINOR_VERSION (seed w) in
  let hashed := hash bcrypt pw salt in
  let update := {| upd_inc_loginEpoch := None;
                   upd_set := [set_hashedPassword hashed];
                   upd_unset_password := true |} in
  let filter := {| filter_id := _id user; filter_loginEpoch := None |} in
  let result := (store_updateOne filter update (users w)).1 in
  let w' := with_users (next_fault (next_fault (next_seed (next_fault w))))
              (store_updateOne filter update (users w)).2 in
  let rest := seq (_checkWriteResult result callback) (InBackground pw Done) in
  run h (setUserPasswordInV2 (Some user) (Some pw) callback) w
  = (EvCall (bcrypt_genSalt BCRYPT_ROUNDS BCRYPT_MINOR_VERSION) (Ok salt)
       :: EvCall (bcrypt_hash pw salt) (Ok hashed)
       :: EvCall (db_users_updateOne filter update) (Ok result)
       :: (run h rest w').1,
     (run h rest w').2).
Proof.
  intros Ht Hv Hf Hf' Hf''. cbv zeta. unfold setUserPasswordInV2.
  rewrite Ht, Hv. cbn [negb]. unfold hashPassword.
  rewrite run_Call_answers by done. cbn [handle fst snd].
  rewrite run_Call_answers by done. cbn [handle fst snd].
  rewrite run_Call_answers by done. cbn [handle].
  change (users (next_fault (next_fault (next_seed (next_fault w))))) with (users w).
  change (seed (next_fault w)) with (seed w).
  by destruct (store_updateOne _ _ (users w)).
Qed.

(** X10. [setUserPassword] for a user whose [_id] is not in the collection,
    with an email and a password that passes validation: the salt and the
    hash are computed and the update is issued, it modifies nothing, the
    caller gets [false], not an error, the collection is left as it was,
    and the background check of the password is scheduled all the same. *)
Theorem setUserPassword_unknown_account h w user pw :
  users w !! _id user = None ->
  truthy (email (fields user)) = true ->
  validatePassword (Some pw) (email (fields user)) = None ->
  next_call_fails w = None ->
  next_call_fails (next_fault w) = None ->
  next_call_fails (next_fault (next_fault w)) = None ->
  delivered (run h (setUserPassword (Some user) (Some pw) toplevel) w).1 = [Ok false]
  /\ background_checks (run h (setUserPassword (Some user) (Some pw) toplevel) w).1 = [pw]
  /\ count_calls (@writes) (run h (setUserPassword (Some user) (Some pw) toplevel) w).1
     = 1%nat
  /\ users (run h (setUserPassword (Some user) (Some pw) toplevel) w).2 = users w.
Proof.
  intros Hnone Ht Hv Hf Hf' Hf''. unfold setUserPassword.
  rewrite (setUserPasswordInV2_answers h w user pw toplevel) by done.
  unfold store_updateOne. cbn [filter_id]. rewrite Hnone. done.
Qed.

(** What a call of [setUserPassword] that reports a modified record has
    stored. *)
Lemma setUserPassword_reported_true h w user pw :
  delivered (run h (setUserPassword (Some user) (Some pw) toplevel) w).1 = [Ok true] ->
  exists d,
    users (run h (setUserPassword (Some user) (Some pw) toplevel) w).2 !! _id user
    = Some d
    /\ hashedPassword d
       = Some (hash bcrypt pw
                 (genSalt bcrypt BCRYPT_ROUNDS BCRYPT_MINOR_VERSION (seed w))).
Proof.
  unfold setUserPassword. intros Hd.
  destruct (setUserPasswordInV2_run h w user pw (toplevel (R:=bool)))
    as [(e & pre & w' & E & Hpre & _)|(w' & Hv & E & Hw')].
  { rewrite E in Hd. cbn [fst] in Hd. rewrite delivered_calls_app in Hd by done.
    discriminate Hd. }
  cbv zeta in E, Hw'. rewrite E in Hd |- *. cbn [fst snd] in Hd |- *.
  unfold store_updateOne in *. cbn [filter_id filter_loginEpoch] in *.
  destruct (users w !! _id user) as [d|] eqn:Hlook; [|discriminate Hd].
  cbn [fst snd] in *.
  destruct (decide _) as [Heq|Hne]; [discriminate Hd|].
  eexists. split.
  - cbn. rewrite Hw'. apply lookup_insert_eq.
  - reflexivity.
Qed.

(** X11. Setting a password and logging in with it.  With a bcrypt whose
    hashes at the target cost are non-empty, carry that cost and verify
    their password: after a [setUserPassword] that reported a modified
    record, an [authenticate] with the same password whose query finds that
    account hands the caller the account, advances its epoch by one, and
    leaves the hash just stored in place (no rotation follows). *)
Theorem setUserPassword_then_authenticate h w user pw query found :
  (forall s, hash bcrypt pw (genSalt bcrypt BCRYPT_ROUNDS BCRYPT_MINOR_VERSION s) <> []) ->
  (forall s, compare bcrypt pw
               (hash bcrypt pw (genSalt bcrypt BCRYPT_ROUNDS BCRYPT_MINOR_VERSION s))
             = true) ->
  (forall s, getRounds bcrypt
               (hash bcrypt pw (genSalt bcrypt BCRYPT_ROUNDS BCRYPT_MINOR_VERSION s))
             = BCRYPT_ROUNDS) ->
  delivered (run h (setUserPassword (Some user) (Some pw) toplevel) w).1 = [Ok true] ->
  faults (run h (setUserPassword (Some user) (Some pw) toplevel) w).2 = [] ->
  store_findOne query (users (run h (setUserPassword (Some user) (Some pw) toplevel) w).2)
  = Some found ->
  _id found = _id user ->
  delivered
    (run h (authenticate query pw toplevel)
       (run h (setUserPassword (Some user) (Some pw) toplevel) w).2).1
  = [Ok (Some found)]
  /\ exists d,
       users
         (run h (authenticate query pw toplevel)
            (run h (setUserPassword (Some user) (Some pw) toplevel) w).2).2
       !! _id user = Some d
       /\ hashedPassword d
          = Some (hash bcrypt pw
                    (genSalt bcrypt BCRYPT_ROUNDS BCRYPT_MINOR_VERSION (seed w)))
       /\ loginEpoch d = loginEpoch (fields found) + 1.
Proof.
  intros Hne Hverify Hcost Hset Hnil Hfind Hid.
  destruct (setUserPassword_reported_true h w user pw Hset) as (d1 & Hlook & Hhash).
  set (w1 := (run h (setUserPassword (Some user) (Some pw) toplevel) w).2) in *.
  set (hashed := hash bcrypt pw
                   (genSalt bcrypt BCRYPT_ROUNDS BCRYPT_MINOR_VERSION (seed w))) in *.
  destruct (store_findOne_Some _ _ _ Hfind) as (Hfound & _ & _).
  rewrite Hid, Hlook in Hfound. injection Hfound as Hd1.
  assert (exists c hp, hashed = c :: hp) as (c & hp & Hc).
  { specialize (Hne (seed w)). fold hashed in Hne. destruct hashed; [done|eauto]. }
  assert (Hh : hashedPassword (fields found) = Some (c :: hp)) by congruence.
  assert (Hcmp : compare bcrypt pw (c :: hp) = true).
  { rewrite <- Hc. apply Hverify. }
  assert (Hrounds : BCRYPT_ROUNDS <= getRounds bcrypt (c :: hp)).
  { rewrite <- Hc. unfold hashed. rewrite Hcost. lia. }
  rewrite (authenticate_match_lands h w1 query pw found c hp);
    try done; try (by repeat (apply faults_nil_answers || apply faults_nil_next)).
  rewrite authenticate_updated_no_rotation by (by right).
  cbn [fst snd users with_users]. split; [reflexivity|].
  eexists. rewrite <- Hid. split; [apply lookup_insert_eq|].
  rewrite apply_update_login_match. cbn [hashedPassword loginEpoch].
  split; [congruence | reflexivity].
Qed.

(** X12. The minimum length falls back to 6 when none is configured and also
    when 0 is configured, so with no negative minimum in the settings the
    empty password is always rejected as [too_short]. *)
Theorem validatePassword_empty_rejected (email : option jsstring) :
  (forall m, configured_length ≫= length_min = Some m -> 0 <= m) ->
  0 < minimum_length
  /\ validatePassword (Some []) email = Some (InvalidPasswordError too_short).
Proof.
  intros Hmin. assert (0 < minimum_length) as Hpos.
  { unfold minimum_length, or_number.
    destruct (configured_length ≫= length_min) as [m|]; [|lia].
    specialize (Hmin m eq_refl). destruct (Z.eqb_spec m 0); lia. }
  split; [done|]. rewrite validatePassword_Some.
  change (Z.of_nat (length (@nil N))) with 0. apply Z.ltb_lt in Hpos. by rewrite Hpos.
Qed.

End AuthenticationManager.

(** * The properties at sample inputs *)

(** The scenarios of the password policy. *)
Example validate_abc :
  validatePassword default_settings (Some (of_string "abc")) (Some (of_string "a@b.com"))
  = Some (InvalidPasswordError too_short).
Proof. reflexivity. Qed.

Example validate_correct_horse :
  validatePassword default_settings (Some (of_string "correct-horse99"))
    (Some (of_string "correct-horse@example.com"))
  = Some (InvalidPasswordError contains_email).
Proof. reflexivity. Qed.

(** C4, as stated, fails: with the default settings the empty password gets
    [too_short], not [not_set]. *)
Lemma validatePassword_empty_is_too_short :
  validatePassword default_settings (Some []) (Some (of_string "a@b.com"))
  = Some (InvalidPasswordError too_short)
  /\ validatePassword default_settings (Some []) (Some (of_string "a@b.com"))
     <> Some (InvalidPasswordError not_set).
Proof. split; [reflexivity | discriminate]. Qed.

Lemma validatePassword_absent_not_set_witness :
  validatePassword default_settings None (Some (of_string "a@b.com"))
  = Some (InvalidPasswordError not_set)
  /\ validatePassword default_settings (Some []) None
     = Some (InvalidPasswordError too_short).
Proof.
  split.
  - apply (proj1 (validatePassword_absent_not_set default_settings)).
  - apply (proj2 (validatePassword_absent_not_set default_settings)).
    vm_compute. reflexivity.
Defined.

Lemma validatePassword_reports_first_violation_witness :
  validatePassword default_settings (Some (of_string "ab")) (Some (of_string "ab@x.com"))
  = Some (InvalidPasswordError too_short).
Proof.
  apply (proj2 (validatePassword_reports_first_violation default_settings
                  (Some (of_string "ab")) (Some (of_string "ab@x.com")))
           (of_string "ab") eq_refl).
  - vm_compute. reflexivity.
  - exists (of_string "ab"), (of_string "ab@x.com").
    split; [reflexivity|]. split; [reflexivity|]. split; [discriminate|].
    right. exists [], []. reflexivity.
Defined.

Lemma authenticate_epoch_conflict_witness :
  delivered
    (run default_settings sample_bcrypt sample_random sample_hibp
       (authenticate_compared default_settings sample_bcrypt alice_user
          ([10%N; 7%N] ++ of_string "correct-horse") (of_string "correct-horse")
          toplevel (Ok true))
       stale_world).1
  = [Err ParallelLoginError]
  /\ exists d,
       users
         (run default_settings sample_bcrypt sample_random sample_hibp
            (authenticate_compared default_settings sample_bcrypt alice_user
               ([10%N; 7%N] ++ of_string "correct-horse") (of_string "correct-horse")
               toplevel (Ok true))
            sample_world).2 !! 1%N = Some d
       /\ loginEpoch d = 3 + 1.
Proof.
  split.
  - apply (proj1 (authenticate_epoch_conflict default_settings sample_bcrypt
                    sample_random sample_hibp stale_world alice_user
                    ([10%N; 7%N] ++ of_string "correct-horse")
                    (of_string "correct-horse") true eq_refl)).
    intros d Hd. vm_compute in Hd. injection Hd as <-. vm_compute. discriminate.
  - apply (proj1 (proj2 (authenticate_epoch_conflict default_settings sample_bcrypt
                           sample_random sample_hibp sample_world alice_user
                           ([10%N; 7%N] ++ of_string "correct-horse")
                           (of_string "correct-horse") true eq_refl)
                    alice eq_refl eq_refl)).
Defined.

Lemma authenticate_conditioned_increment_witness :
  count_calls (@conditioned)
    (run default_settings sample_bcrypt sample_random sample_hibp
       (authenticate default_settings sample_bcrypt
          (Q_email (of_string "alice@example.com")) (of_string "wrong-guess") toplevel)
       sample_world).1
  = 1%nat.
Proof.
  apply (proj1 (proj2 (authenticate_conditioned_increment default_settings sample_bcrypt
                         sample_random))
           sample_hibp sample_world (Q_email (of_string "alice@example.com"))
           (of_string "wrong-guess") alice_user 10%N
           (7%N :: of_string "correct-horse"));
    reflexivity.
Defined.

Lemma authenticate_unknown_or_passwordless_witness :
  delivered
    (run default_settings sample_bcrypt sample_random sample_hibp
       (authenticate default_settings sample_bcrypt
          (Q_email (of_string "unknown@x.com")) (of_string "anything") toplevel)
       sample_world).1
  = [Ok None].
Proof.
  apply (authenticate_unknown_or_passwordless default_settings sample_bcrypt
           sample_random sample_hibp sample_world
           (Q_email (of_string "unknown@x.com")) (of_string "anything") eq_refl).
  left. reflexivity.
Defined.

Lemma setUserPassword_sets_hash_and_unsets_password_witness :
  exists d hashed result t,
    users sample_world !! 1%N = Some d
    /\ validatePassword default_settings (Some (of_string "new-password-1"))
         (email alice) = None
    /\ hashed = [12%N; 5%N] ++ of_string "new-password-1"
    /\ (run default_settings sample_bcrypt sample_random sample_hibp
          (setUserPassword default_settings (Some alice_user)
             (Some (of_string "new-password-1")) toplevel)
          sample_world).1
       = t ++ [EvCall (db_users_updateOne
                         {| filter_id := 1%N; filter_loginEpoch := None |}
                         {| upd_inc_loginEpoch := None;
                            upd_set := [set_hashedPassword hashed];
                            upd_unset_password := true |}) (Ok result);
               EvDeliver (Ok true);
               EvBackground (of_string "new-password-1")
                 (sample_hibp (of_string "new-password-1"))]
    /\ count_calls (@writes)
         (run default_settings sample_bcrypt sample_random sample_hibp
            (setUserPassword default_settings (Some alice_user)
               (Some (of_string "new-password-1")) toplevel)
            sample_world).1 = 1%nat
    /\ users
         (run default_settings sample_bcrypt sample_random sample_hibp
            (setUserPassword default_settings (Some alice_user)
               (Some (of_string "new-password-1")) toplevel)
            sample_world).2
       = <[1%N :=
             {| email := email d; first_name := first_name d; last_name := last_name d;
                hashedPassword := Some hashed; password := None;
                loginEpoch := loginEpoch d; lastFailedLogin := lastFailedLogin d;
                thirdPartyIdentifiers := thirdPartyIdentifiers d; admin := admin d;
                emails := emails d |}]> (users sample_world).
Proof.
  apply (setUserPassword_sets_hash_and_unsets_password default_settings sample_bcrypt
           sample_random sample_hibp sample_world alice_user
           (of_string "new-password-1")).
  reflexivity.
Defined.

Lemma authenticate_rotates_hash_witness :
  compare sample_bcrypt (of_string "correct-horse")
    ([10%N; 7%N] ++ of_string "correct-horse") = true
  /\ exists d replacement,
       users
         (run default_settings sample_bcrypt sample_random sample_hibp
            (authenticate default_settings sample_bcrypt
               (Q_email (of_string "alice@example.com")) (of_string "correct-horse")
               toplevel)
            sample_world).2 !! 1%N = Some d
       /\ hashedPassword d = Some replacement
       /\ replacement <> [10%N; 7%N] ++ of_string "correct-horse"
       /\ getRounds sample_bcrypt replacement = 12
       /\ compare sample_bcrypt (of_string "correct-horse") replacement = true.
Proof.
  apply (authenticate_rotates_hash default_settings sample_bcrypt sample_random
           sample_hibp sample_world (Q_email (of_string "alice@example.com"))
           (of_string "correct-horse") alice_user
           ([10%N; 7%N] ++ of_string "correct-horse")).
  - intros pw s. reflexivity || (apply bool_decide_eq_true; reflexivity).
  - intros pw s. reflexivity.
  - reflexivity.
  - reflexivity.
  - reflexivity.
  - reflexivity.
Defined.

(** C9, as stated, fails: a password-set call that the policy rejects hands
    its error to the caller and schedules no background check. *)
Lemma setUserPassword_rejected_no_background_check :
  run default_settings sample_bcrypt sample_random sample_hibp
    (setUserPassword default_settings (Some alice_user) (Some (of_string "abc")) toplevel)
    sample_world
  = ([EvDeliver (Err (InvalidPasswordError too_short))], sample_world)
  /\ background_checks
       (run default_settings sample_bcrypt sample_random sample_hibp
          (setUserPassword default_settings (Some alice_user) (Some (of_string "abc"))
             toplevel)
          sample_world).1
     = [].
Proof. split; reflexivity. Qed.

(** C8, as stated, fails: when the save that follows the registration
    fails, the caller gets the error, yet the collection has grown by the
    registered account, which carries no subject identifier and no
    confirmation. *)
Lemma link_save_failure_leaves_unlinked_account :
  delivered
    (run default_settings sample_bcrypt sample_random sample_hibp
       (doPassportLogin carol_claims toplevel) failing_world).1
  = [Err (CollaboratorError StoreError)]
  /\ size (users failing_world) = 1%nat
  /\ size (users
             (run default_settings sample_bcrypt sample_random sample_hibp
                (doPassportLogin carol_claims toplevel) failing_world).2)
     = 2%nat
  /\ linked_ids (sub carol_claims)
       (users
          (run default_settings sample_bcrypt sample_random sample_hibp
             (doPassportLogin carol_claims toplevel) failing_world).2)
     = []
  /\ users
       (run default_settings sample_bcrypt sample_random sample_hibp
          (doPassportLogin carol_claims toplevel) failing_world).2 !! 2%N
     = Some (new_account (claim_details carol_claims (sample_random 5%N))
               ([12%N; 6%N] ++ sample_random 5%N)).
Proof. vm_compute. repeat split; reflexivity. Qed.

Lemma link_creates_in_two_writes_witness :
  (delivered
     (run default_settings sample_bcrypt sample_random sample_hibp
        (doPassportLogin carol_claims toplevel) failing_world).1
   = [Err (CollaboratorError StoreError)]
   /\ users
        (run default_settings sample_bcrypt sample_random sample_hibp
           (doPassportLogin carol_claims toplevel) failing_world).2
      = <[2%N := new_account (claim_details carol_claims (sample_random 5%N))
                   ([12%N; 6%N] ++ sample_random 5%N)]> (users failing_world)
   /\ count_calls (@writes)
        (run default_settings sample_bcrypt sample_random sample_hibp
           (doPassportLogin carol_claims toplevel) failing_world).1
      = 2%nat)
  /\ (delivered
        (run default_settings sample_bcrypt sample_random sample_hibp
           (doPassportLogin carol_claims toplevel) sample_world).1
      = [Ok {| _id := 2%N;
               fields := linked_account carol_claims ([12%N; 6%N] ++ sample_random 5%N)
                           1000;
               modified := [] |}]
      /\ users
           (run default_settings sample_bcrypt sample_random sample_hibp
              (doPassportLogin carol_claims toplevel) sample_world).2
         = <[2%N := linked_account carol_claims ([12%N; 6%N] ++ sample_random 5%N) 1000]>
             (users sample_world)
      /\ count_calls (@writes)
           (run default_settings sample_bcrypt sample_random sample_hibp
              (doPassportLogin carol_claims toplevel) sample_world).1
         = 2%nat).
Proof.
  split.
  - apply (proj1 (proj2 (link_creates_in_two_writes default_settings sample_bcrypt
                           sample_random sample_hibp failing_world carol_claims eq_refl
                           ltac:(intros user Hu; vm_compute in Hu; discriminate Hu))
                    eq_refl)
             StoreError eq_refl).
  - apply (proj2 (proj2 (link_creates_in_two_writes default_settings sample_bcrypt
                           sample_random sample_hibp sample_world carol_claims eq_refl
                           ltac:(intros user Hu; vm_compute in Hu; discriminate Hu))
                    eq_refl)
             eq_refl).
Defined.

(** C7, as stated, fails: in a collection whose one account carries the
    subject but has no [hashedPassword], each of two calls with the same
    claims registers a further account; three accounts carry the subject
    afterwards. *)
Lemma link_twice_duplicates_passwordless_account :
  linked_ids (sub bob_claims) (users bob_world) = [2%N]
  /\ size (users
             (run default_settings sample_bcrypt sample_random sample_hibp
                (doPassportLogin bob_claims toplevel)
                (run default_settings sample_bcrypt sample_random sample_hibp
                   (doPassportLogin bob_claims toplevel) bob_world).2).2)
     = 3%nat
  /\ length
       (linked_ids (sub bob_claims)
          (users
             (run default_settings sample_bcrypt sample_random sample_hibp
                (doPassportLogin bob_claims toplevel)
                (run default_settings sample_bcrypt sample_random sample_hibp
                   (doPassportLogin bob_claims toplevel) bob_world).2).2))
     = 3%nat.
Proof. vm_compute. repeat split; reflexivity. Qed.

Lemma link_twice_first_seen_witness :
  size (users
          (run default_settings sample_bcrypt sample_random sample_hibp
             (doPassportLogin carol_claims toplevel) sample_world).2)
  = S (size (users sample_world))
  /\ users
       (run default_settings sample_bcrypt sample_random sample_hibp
          (doPassportLogin carol_claims toplevel)
          (run default_settings sample_bcrypt sample_random sample_hibp
             (doPassportLogin carol_claims toplevel) sample_world).2).2
     = users
         (run default_settings sample_bcrypt sample_random sample_hibp
            (doPassportLogin carol_claims toplevel) sample_world).2.
Proof.
  pose proof (proj2 (link_twice_first_seen default_settings sample_bcrypt sample_random
                       sample_hibp carol_claims)
                sample_world eq_refl eq_refl
                ltac:(intros pw s; discriminate)) as H.
  split; [exact (proj1 H) | exact (proj1 (proj2 H))].
Defined.

(** * The further properties at sample inputs *)

Lemma validatePassword_rejects_over_72_witness :
  validatePassword default_settings (Some (List.repeat 97%N 73)) None
  = Some (InvalidPasswordError too_short)
  \/ validatePassword default_settings (Some (List.repeat 97%N 73)) None
     = Some (InvalidPasswordError too_long).
Proof.
  apply (validatePassword_rejects_over_72 default_settings (List.repeat 97%N 73) None).
  vm_compute. reflexivity.
Defined.

Lemma validatePassword_empty_rejected_witness :
  0 < minimum_length default_settings
  /\ validatePassword default_settings (Some []) (Some (of_string "a@b.com"))
     = Some (InvalidPasswordError too_short).
Proof.
  apply (validatePassword_empty_rejected default_settings (Some (of_string "a@b.com"))).
  intros m Hm. vm_compute in Hm. discriminate Hm.
Defined.

Lemma authenticate_collaborator_failure_witness :
  run default_settings sample_bcrypt sample_random sample_hibp
    (authenticate default_settings sample_bcrypt
       (Q_email (of_string "dave@example.com")) (of_string "battery-staple") toplevel)
    store_down_world
  = ([EvCall (User_findOne (Q_email (of_string "dave@example.com")))
        (Err (CollaboratorError StoreError));
      EvDeliver (Err (CollaboratorError StoreError))],
     next_fault store_down_world).
Proof.
  apply (proj1 (authenticate_collaborator_failure default_settings sample_bcrypt
                  sample_random sample_hibp store_down_world
                  (Q_email (of_string "dave@example.com")) (of_string "battery-staple")
                  StoreError)).
  reflexivity.
Defined.

Lemma authenticate_without_rotation_witness :
  delivered
    (run default_settings sample_bcrypt sample_random sample_hibp
       (authenticate default_settings sample_bcrypt
          (Q_email (of_string "dave@example.com")) (of_string "battery-staple") toplevel)
       staff_world).1
  = [Ok (Some dave_user)].
Proof.
  assert (disableBcryptRoundsUpgrades (security default_settings) = true
          \/ BCRYPT_ROUNDS default_settings
             <= getRounds sample_bcrypt (12%N :: 7%N :: of_string "battery-staple"))
    as Hcost.
  { right. vm_compute. discriminate. }
  pose proof (authenticate_without_rotation default_settings sample_bcrypt
                sample_random sample_hibp staff_world
                (Q_email (of_string "dave@example.com")) (of_string "battery-staple")
                dave_user 12%N (7%N :: of_string "battery-staple")) as H.
  do 6 specialize (H eq_refl). specialize (H Hcost).
  rewrite (proj1 H). reflexivity.
Defined.

Lemma authenticate_rotation_rejected_witness :
  delivered
    (run default_settings sample_bcrypt sample_random sample_hibp
       (authenticate default_settings sample_bcrypt
          (Q_email (of_string "erin@example.com")) (of_string "short") toplevel)
       staff_world).1
  = [Err (InvalidPasswordError too_short)]
  /\ background_checks
       (run default_settings sample_bcrypt sample_random sample_hibp
          (authenticate default_settings sample_bcrypt
             (Q_email (of_string "erin@example.com")) (of_string "short") toplevel)
          staff_world).1
     = [].
Proof.
  pose proof (authenticate_rotation_rejected default_settings sample_bcrypt
                sample_random sample_hibp staff_world
                (Q_email (of_string "erin@example.com")) (of_string "short")
                erin_user 10%N (7%N :: of_string "short")
                (InvalidPasswordError too_short)
                eq_refl eq_refl eq_refl eq_refl eq_refl eq_refl eq_refl eq_refl
                (or_intror (conj eq_refl eq_refl))) as H.
  split; [exact (proj1 H) | exact (proj1 (proj2 H))].
Defined.

Lemma setUserPassword_unknown_account_witness :
  delivered
    (run default_settings sample_bcrypt sample_random sample_hibp
       (setUserPassword default_settings (Some ghost_user)
          (Some (of_string "new-password-1")) toplevel)
       sample_world).1
  = [Ok false]
  /\ background_checks
       (run default_settings sample_bcrypt sample_random sample_hibp
          (setUserPassword default_settings (Some ghost_user)
             (Some (of_string "new-password-1")) toplevel)
          sample_world).1
     = [of_string "new-password-1"].
Proof.
  pose proof (setUserPassword_unknown_account default_settings sample_bcrypt
                sample_random sample_hibp sample_world ghost_user
                (of_string "new-password-1")
                eq_refl eq_refl eq_refl eq_refl eq_refl eq_refl) as H.
  split; [exact (proj1 H) | exact (proj1 (proj2 H))].
Defined.

Lemma setUserPassword_then_authenticate_witness :
  delivered
    (run default_settings sample_bcrypt sample_random sample_hibp
       (authenticate default_settings sample_bcrypt
          (Q_email (of_string "alice@example.com")) (of_string "new-password-1") toplevel)
       (run default_settings sample_bcrypt sample_random sample_hibp
          (setUserPassword default_settings (Some alice_user)
             (Some (of_string "new-password-1")) toplevel)
          sample_world).2).1
  = [Ok (Some {| _id := 1%N; fields := alice_reset; modified := [] |})].
Proof.
  apply (setUserPassword_then_authenticate default_settings sample_bcrypt
           sample_random sample_hibp sample_world alice_user
           (of_string "new-password-1") (Q_email (of_string "alice@example.com"))
           {| _id := 1%N; fields := alice_reset; modified := [] |}).
  - intros s. discriminate.
  - intros s. reflexivity.
  - intros s. reflexivity.
  - reflexivity.
  - reflexivity.
  - reflexivity.
  - reflexivity.
Defined.

(** The sample login of [alice], whose hash of cost 10 is rotated, is
    followed by two checks of the password, after one answered hash update;
    that of [dave], whose hash has cost 12, by one, after none. *)
Example authenticate_rotated_checks_twice :
  background_checks
    (run default_settings sample_bcrypt sample_random sample_hibp
       (authenticate default_settings sample_bcrypt
          (Q_email (of_string "alice@example.com")) (of_string "correct-horse") toplevel)
       sample_world).1
  = [of_string "correct-horse"; of_string "correct-horse"]
  /\ count_answered (@hash_update)
       (run default_settings sample_bcrypt sample_random sample_hibp
          (authenticate default_settings sample_bcrypt
             (Q_email (of_string "alice@example.com")) (of_string "correct-horse") toplevel)
          sample_world).1
     = 1%nat.
Proof. split; vm_compute; reflexivity. Qed.

Example authenticate_not_rotated_checks_once :
  background_checks
    (run default_settings sample_bcrypt sample_random sample_hibp
       (authenticate default_settings sample_bcrypt
          (Q_email (of_string "dave@example.com")) (of_string "battery-staple") toplevel)
       staff_world).1
  = [of_string "battery-staple"]
  /\ count_answered (@hash_update)
       (run default_settings sample_bcrypt sample_random sample_hibp
          (authenticate default_settings sample_bcrypt
             (Q_email (of_string "dave@example.com")) (of_string "battery-staple") toplevel)
          staff_world).1
     = 0%nat.
Proof. split; vm_compute; reflexivity. Qed.
